(** * Options analytics backend (backend/server.py): shallow embedding

    The analytics functions of [backend/server.py] are embedded as Rocq
    functions and the statements of the specification are proved about them.

    Numbers.  Python floats and ints are idealised as exact rationals
    ([Q], compared with [==]); rounding, overflow, infinities and NaN are not
    modelled.  The Sharpe ratio needs a square root and is modelled over the
    real numbers ([R]).

    Dictionaries.  A key that the code reads with [dict.get] or guards with
    [in] is an [option] field; a key that the code indexes unconditionally is
    a mandatory field.

    Exceptions.  Code inside a [try] block runs in the exception monad [M];
    the handler of each function maps a raised exception to the response the
    code builds for it. *)

From Stdlib Require Import Lqa Permutation Ascii.
From Stdlib Require Import Reals.
From Stdlib Require Import QArith Qminmax Qround Qabs ZArith List String Bool Lia Lra Sorted.
Import ListNotations.
Local Open Scope Q_scope.

(** ** Python exceptions and responses *)

Inductive exn : Type :=
| ZeroDivisionError
| ValueError
| IndexError
| OverflowError.

Inductive M (A : Type) : Type :=
| Return (a : A)
| Raise (e : exn).
Arguments Return {A} a.
Arguments Raise {A} e.

Definition bind {A B : Type} (m : M A) (k : A -> M B) : M B :=
  match m with
  | Return a => k a
  | Raise e => Raise e
  end.

Notation "x <- m ;; k" := (bind m (fun x => k))
  (at level 61, m at next level, right associativity).

(** What a route or helper hands back: a JSON body, an [{"error": msg}] body,
    or an [HTTPException(status_code=500)]. *)
Inductive response (A : Type) : Type :=
| Payload (a : A)
| ErrorPayload (msg : string)
| Http500 (e : exn).
Arguments Payload {A} a.
Arguments ErrorPayload {A} msg.
Arguments Http500 {A} e.

(** [d.get(key, default)] on an optional field. *)
Definition get {A : Type} (field : option A) (default : A) : A :=
  match field with
  | Some v => v
  | None => default
  end.

(** Truthiness of a number, a string and a list. *)
Definition truthy_num (x : Q) : bool := negb (Qeq_bool x 0).

Definition truthy_str (s : option string) : bool :=
  match s with
  | None => false
  | Some s => negb (String.eqb s "")
  end.

Definition truthy_list {A : Type} (l : list A) : bool :=
  match l with
  | [] => false
  | _ :: _ => true
  end.

(** [a / b] on Python floats. *)
Definition py_div (a b : Q) : M Q :=
  if Qeq_bool b 0 then Raise ZeroDivisionError else Return (a / b).

(** Built-in [max(a, b)] and [min(a, b)]: the first argument wins ties. *)
Definition py_max2 (a b : Q) : Q :=
  match a ?= b with
  | Lt => b
  | _ => a
  end.

Definition py_min2 (a b : Q) : Q :=
  match b ?= a with
  | Lt => b
  | _ => a
  end.

(** [max(values)] and [min(values)]: [ValueError] on an empty list. *)
Definition py_max (values : list Q) : M Q :=
  match values with
  | [] => Raise ValueError
  | x :: xs => Return (fold_left py_max2 xs x)
  end.

Definition py_min (values : list Q) : M Q :=
  match values with
  | [] => Raise ValueError
  | x :: xs => Return (fold_left py_min2 xs x)
  end.

(** [np.linspace(start, stop, num)] with the end point included:
    [start + i * step] for [i < num], [step = (stop - start) / (num - 1)]. *)
Definition linspace (start stop : Q) (num : nat) : list Q :=
  let step := (stop - start) / (inject_Z (Z.of_nat num) - 1) in
  map (fun i => start + inject_Z (Z.of_nat i) * step) (seq 0 num).

(** The sum of a list of rationals, for the statements. *)
Definition Qsum (l : list Q) : Q := fold_right Qplus 0 l.

(** ** Payoff curve engine: [calculate_strategy_pnl] *)

Module Payoff.

Record Leg : Type := mkLeg {
  option_type : option string;
  strike : option Q;
  quantity : option Q;
  price : option Q
}.

Record Request : Type := mkRequest {
  strategy_type : option string;
  underlying_price : option Q;
  legs : option (list Leg);
  price_range_pct : option Q
}.

Record Point : Type := mkPoint {
  pt_price : Q;
  pt_pnl : Q
}.

Record Result : Type := mkResult {
  res_strategy_type : string;
  res_underlying_price : Q;
  pnl_curve : list Point;
  max_profit : Q;
  max_loss : Q;
  breakeven_points : list Q;
  res_initial_cost : Q
}.

Definition price_points : nat := 50.

Definition option_value_at_expiry (option_type : string) (strike underlying : Q) : Q :=
  if String.eqb option_type "call" then py_max2 0 (underlying - strike)
  else if String.eqb option_type "put" then py_max2 0 (strike - underlying)
  else 0.

(** First loop over the legs: the cost (or credit) of entering the position. *)
Definition initial_cost (legs : list Leg) : Q :=
  fold_left
    (fun cost leg => cost + get (price leg) 0 * get (quantity leg) 0 * 100)
    legs 0.

(** Body of the loop over the prices: the P&L of the position at one price. *)
Definition total_pnl (cost : Q) (legs : list Leg) (underlying : Q) : Q :=
  fold_left
    (fun total leg =>
       let value :=
         option_value_at_expiry (get (option_type leg) ""%string)
                                (get (strike leg) 0) underlying in
       total + value * get (quantity leg) 0 * 100)
    legs (- cost).

Definition build_curve (cost : Q) (legs : list Leg) (prices : list Q) : list Point :=
  map (fun p => mkPoint p (total_pnl cost legs p)) prices.

(** [pnl_curve[i]]. *)
Definition at_index (curve : list Point) (i : nat) : M Point :=
  match nth_error curve i with
  | Some pt => Return pt
  | None => Raise IndexError
  end.

Definition crosses_zero (pnl1 pnl2 : Q) : bool :=
  (Qle_bool pnl1 0 && Qle_bool 0 pnl2) || (Qle_bool 0 pnl1 && Qle_bool pnl2 0).

(** One iteration of [for i in range(1, len(pnl_curve))]. *)
Definition breakeven_step (curve : list Point) (found : list Q) (i : nat) : M (list Q) :=
  a <- at_index curve (i - 1) ;;
  b <- at_index curve i ;;
  if crosses_zero (pt_pnl a) (pt_pnl b) then
    let p1 := pt_price a in
    let p2 := pt_price b in
    let pnl1 := pt_pnl a in
    let pnl2 := pt_pnl b in
    if negb (Qeq_bool (pnl2 - pnl1) 0) then
      breakeven_price <- py_div ((p2 - p1) * (- pnl1)) (pnl2 - pnl1) ;;
      Return (found ++ [p1 + breakeven_price])
    else Return found
  else Return found.

Definition find_breakevens (curve : list Point) : M (list Q) :=
  fold_left (fun acc i => found <- acc ;; breakeven_step curve found i)
            (seq 1 (List.length curve - 1)) (Return []).

(** The body of the [try] block after the parameter check. *)
Definition compute (strategy : string) (underlying : Q) (legs : list Leg)
    (range_pct : Q) : M Result :=
  let min_price := underlying * (1 - range_pct / 100) in
  let max_price := underlying * (1 + range_pct / 100) in
  let prices := linspace min_price max_price price_points in
  let cost := initial_cost legs in
  let curve := build_curve cost legs prices in
  let pnl_values := map pt_pnl curve in
  max_profit <- py_max pnl_values ;;
  max_loss <- py_min pnl_values ;;
  breakevens <- find_breakevens curve ;;
  Return (mkResult strategy underlying curve max_profit max_loss breakevens cost).

Definition calculate_strategy_pnl (request : Request) : response Result :=
  let strategy_type := strategy_type request in
  let underlying_price := get (underlying_price request) 0 in
  let legs := get (legs request) [] in
  let price_range_pct := get (price_range_pct request) 20 in
  if negb (truthy_str strategy_type) || negb (truthy_num underlying_price)
     || negb (truthy_list legs)
  then ErrorPayload "Missing required parameters"
  else
    match compute (get strategy_type ""%string) underlying_price legs price_range_pct with
    | Return r => Payload r
    | Raise e => Http500 e
    end.

(** The prices and the curve that [compute] builds for a request. *)
Definition sample_prices (underlying range_pct : Q) : list Q :=
  linspace (underlying * (1 - range_pct / 100)) (underlying * (1 + range_pct / 100))
           price_points.

Definition sampled_curve (underlying range_pct : Q) (legs : list Leg) : list Point :=
  build_curve (initial_cost legs) legs (sample_prices underlying range_pct).

(** A leg read with the defaults that [leg.get] supplies: what it costs to
    enter and what it is worth at expiry, per 100-share contract. *)
Definition leg_entry_cost (leg : Leg) : Q :=
  get (price leg) 0 * get (quantity leg) 0 * 100.

Definition leg_value_at (underlying : Q) (leg : Leg) : Q :=
  option_value_at_expiry (get (option_type leg) ""%string) (get (strike leg) 0)
                         underlying
  * get (quantity leg) 0 * 100.

(** The P&L of two adjacent samples crosses or touches zero. *)
Definition sign_change (pnl1 pnl2 : Q) : Prop :=
  (pnl1 <= 0 /\ 0 <= pnl2) \/ (0 <= pnl1 /\ pnl2 <= 0).

(** The breakeven rule as the specification words it: over the pairs of
    adjacent samples, a segment whose P&L crosses or touches zero and is not
    flat yields its interpolated root, any other segment yields nothing. *)
Fixpoint adjacent_pairs (curve : list Point) : list (Point * Point) :=
  match curve with
  | a :: (b :: _) as rest => (a, b) :: adjacent_pairs rest
  | _ => []
  end.

Definition interpolated_root (a b : Point) : Q :=
  pt_price a + (pt_price b - pt_price a) * (- pt_pnl a) / (pt_pnl b - pt_pnl a).

Definition segment_breakeven (seg : Point * Point) : list Q :=
  let (a, b) := seg in
  if crosses_zero (pt_pnl a) (pt_pnl b) && negb (Qeq_bool (pt_pnl b) (pt_pnl a))
  then [interpolated_root a b]
  else [].

Definition breakevens_spec (curve : list Point) : list Q :=
  flat_map segment_breakeven (adjacent_pairs curve).

End Payoff.

(** The single long call of the specification's examples. *)
Definition long_call : Payoff.Leg :=
  Payoff.mkLeg (Some "call"%string) (Some 100) (Some 1) (Some 2).

Definition long_call_request (strategy : option string) (underlying : Q) : Payoff.Request :=
  Payoff.mkRequest strategy (Some underlying) (Some [long_call]) None.

(** ** Exposure aggregator: [calculate_gex] and [calculate_dex] *)

(** [df.groupby(key)[value].sum().reset_index()]: one row per distinct key,
    keys ascending, values of equal keys added up.  [group_add] accumulates
    one row into the groups. *)
Fixpoint group_add (k v : Q) (groups : list (Q * Q)) : list (Q * Q) :=
  match groups with
  | [] => [(k, v)]
  | (k', v') :: rest =>
      match k ?= k' with
      | Lt => (k, v) :: groups
      | Eq => (k', v' + v) :: rest
      | Gt => (k', v') :: group_add k v rest
      end
  end.

Definition groupby_sum (rows : list (Q * Q)) : list (Q * Q) :=
  fold_left (fun groups row => group_add (fst row) (snd row) groups) rows [].

(** The rows whose key equals [k]. *)
Definition keyed (k : Q) (rows : list (Q * Q)) : list (Q * Q) :=
  filter (fun row => Qeq_bool (fst row) k) rows.

(** [series.sum()]. *)
Definition series_sum (values : list Q) : Q := fold_left Qplus values 0.

Module Exposure.

(** A JSON object of numbers, as the list of its members. *)
Definition obj : Type := list (string * Q).

Fixpoint lookup (key : string) (d : obj) : option Q :=
  match d with
  | [] => None
  | (k, v) :: rest => if String.eqb k key then Some v else lookup key rest
  end.

(** One entry of the chain.  [strike] and [option_type] are indexed
    unconditionally by the code; [greeks] is [None] when the key is absent or
    null.  No operation on a payload of this type raises, so the [except]
    handler of the two functions, which would answer with an error payload
    as well, is not reached. *)
Record RawOption : Type := mkRawOption {
  strike : Q;
  option_type : string;
  greeks : option obj;
  open_interest : option Q;
  volume : option Q
}.

(** The value under ["options"] of the payload. *)
Inductive OptionsField : Type :=
| Absent
| Null
| Chain (option_list : list RawOption).

Record OptionsData : Type := mkOptionsData { options : OptionsField }.

(** [if "greeks" in option and option["greeks"]]. *)
Definition has_greeks (option : RawOption) : bool :=
  match greeks option with
  | Some (_ :: _) => true
  | _ => false
  end.

Definition greek (name : string) (option : RawOption) : Q :=
  get (lookup name (get (greeks option) [])) 0.

Record GexRow : Type := mkGexRow {
  gex_strike : Q;
  gex_option_type : string;
  gex_gamma : Q;
  gex_open_interest : Q;
  gex_volume : Q
}.

Record DexRow : Type := mkDexRow {
  dex_strike : Q;
  dex_option_type : string;
  dex_delta : Q;
  dex_open_interest : Q
}.

Definition gex_row (option : RawOption) : GexRow :=
  mkGexRow (strike option) (option_type option) (greek "gamma" option)
           (get (open_interest option) 0) (get (volume option) 0).

Definition dex_row (option : RawOption) : DexRow :=
  mkDexRow (strike option) (option_type option) (greek "delta" option)
           (get (open_interest option) 0).

(** The loop that fills [options_list]. *)
Definition collect {Row : Type} (row : RawOption -> Row) (chain : list RawOption) : list Row :=
  fold_left
    (fun options_list option =>
       if has_greeks option then options_list ++ [row option] else options_list)
    chain [].

Definition gex_sign (option_type : string) : Q :=
  if String.eqb option_type "call" then 1 else -1.

Definition gex (row : GexRow) : Q :=
  gex_gamma row * gex_open_interest row * 100 * gex_sign (gex_option_type row).

Definition dex (row : DexRow) : Q :=
  dex_delta row * dex_open_interest row * 100.

Record GexResult : Type := mkGexResult {
  gex_strikes : list Q;
  gex_values : list Q;
  total_gex : Q
}.

Record DexResult : Type := mkDexResult {
  dex_strikes : list Q;
  dex_values : list Q;
  total_dex : Q
}.

Definition calculate_gex (options_data : OptionsData) : response GexResult :=
  match options options_data with
  | Absent | Null => ErrorPayload "No options data found"
  | Chain option_list =>
      let options_list := collect gex_row option_list in
      if negb (truthy_list options_list)
      then ErrorPayload "No valid options with Greeks found"
      else
        let df := map (fun row => (gex_strike row, gex row)) options_list in
        let gex_by_strike := groupby_sum df in
        Payload (mkGexResult (map fst gex_by_strike) (map snd gex_by_strike)
                             (series_sum (map snd gex_by_strike)))
  end.

Definition calculate_dex (options_data : OptionsData) : response DexResult :=
  match options options_data with
  | Absent | Null => ErrorPayload "No options data found"
  | Chain option_list =>
      let options_list := collect dex_row option_list in
      if negb (truthy_list options_list)
      then ErrorPayload "No valid options with Greeks found"
      else
        let df := map (fun row => (dex_strike row, dex row)) options_list in
        let dex_by_strike := groupby_sum df in
        Payload (mkDexResult (map fst dex_by_strike) (map snd dex_by_strike)
                             (series_sum (map snd dex_by_strike)))
  end.

(** The contracts that pass the greeks filter, and what one contract adds to
    the exposure of its strike, read off the raw entry. *)
Definition surviving (options_data : OptionsData) : list RawOption :=
  match options options_data with
  | Chain option_list => filter has_greeks option_list
  | _ => []
  end.

Definition contract_gex (option : RawOption) : Q :=
  greek "gamma" option * get (open_interest option) 0 * 100
  * gex_sign (option_type option).

Definition contract_dex (option : RawOption) : Q :=
  greek "delta" option * get (open_interest option) 0 * 100.

Definition at_strike (k : Q) (contracts : list RawOption) : list RawOption :=
  filter (fun option => Qeq_bool (strike option) k) contracts.

(** A small chain: two contracts at 105, one without greeks at 95, one at
    100 whose greeks lack gamma. *)
Definition call_105 : RawOption :=
  mkRawOption 105 "call" (Some [("gamma"%string, 1 # 100)]) (Some 10) None.

Definition put_105 : RawOption :=
  mkRawOption 105 "put" (Some [("gamma"%string, 2 # 100); ("delta"%string, -1 # 2)])
              (Some 20) (Some 3).

Definition call_100 : RawOption :=
  mkRawOption 100 "call" (Some [("delta"%string, 1 # 2)]) (Some 4) None.

Definition no_greeks_95 : RawOption :=
  mkRawOption 95 "put" None (Some 7) None.

Definition sample_chain : OptionsData :=
  mkOptionsData (Chain [call_105; no_greeks_95; put_105; call_100]).

End Exposure.

(** ** Simplified backtest runner: [run_backtest] *)

(** [int(x)] on a float: truncation toward zero. *)
Definition py_int (x : Q) : Z := Z.quot (Qnum x) (Zpos (Qden x)).

(** [int(a / b)] where [b] is a numpy float: a zero divisor yields an
    infinity or a NaN, which [int] refuses. *)
Definition int_of_quotient (a b : Q) : M Z :=
  if Qeq_bool b 0
  then (if Qeq_bool a 0 then Raise ValueError else Raise OverflowError)
  else Return (py_int (a / b)).

Module Backtest.

Record Day : Type := mkDay {
  date : string;
  close : Q
}.

(** A ledger entry of the Covered Call branch. *)
Record Trade : Type := mkTrade {
  trade_date : string;
  action : string;
  trade_price : Q;
  premium : Q;
  trade_capital : Q
}.

Record CoveredCall : Type := mkCoveredCall {
  position_size : Z;
  capital : Q;
  trade_history : list Trade;
  final_capital : Q
}.

(** [df.iloc[i]]. *)
Definition iloc (df : list Day) (i : nat) : M Day :=
  match nth_error df i with
  | Some day => Return day
  | None => Raise IndexError
  end.

(** [df.iloc[-1]]. *)
Definition iloc_last (df : list Day) : M Day :=
  iloc df (List.length df - 1).

(** One iteration of [for i in range(1, len(df))]. *)
Definition premium_step (df : list Day) (position_size : Z)
    (state : Q * list Trade) (i : nat) : M (Q * list Trade) :=
  let (capital, trade_history) := state in
  if Nat.eqb (i mod 30) 0 then
    day <- iloc df i ;;
    let premium := close day * (2 # 100) * inject_Z position_size in
    let capital := capital + premium in
    Return (capital,
            trade_history ++
              [mkTrade (date day) "Sell Call" (close day) premium
                       (capital + close day * inject_Z position_size)])
  else Return state.

Definition collect_premiums (df : list Day) (position_size : Z)
    (indices : list nat) (state : Q * list Trade) : M (Q * list Trade) :=
  fold_left (fun acc i => state <- acc ;; premium_step df position_size state i)
            indices (Return state).

(** The branch [strategy["name"] == "Covered Call"]. *)
Definition covered_call (df : list Day) (initial_capital : Q) : M CoveredCall :=
  let capital := initial_capital in
  let position_size := 100%Z in
  first <- iloc df 0 ;;
  let buy_price := close first in
  let investment := buy_price * inject_Z position_size in
  position_size <-
    (if Qlt_le_dec capital investment
     then int_of_quotient capital buy_price
     else Return position_size) ;;
  let investment := buy_price * inject_Z position_size in
  let capital := capital - investment in
  state <- collect_premiums df position_size (seq 1 (List.length df - 1)) (capital, []) ;;
  let (capital, trade_history) := state in
  last <- iloc_last df ;;
  let final_stock_value := close last * inject_Z position_size in
  Return (mkCoveredCall position_size capital trade_history (capital + final_stock_value)).

(** The indices at which the loop collects a premium. *)
Definition premium_days (df : list Day) : list nat :=
  filter (fun i => Nat.eqb (i mod 30) 0) (seq 1 (List.length df - 1)).

Definition close_at (df : list Day) (i : nat) : Q :=
  close (nth i df (mkDay "" 0)).

Definition date_at (df : list Day) (i : nat) : string :=
  date (nth i df (mkDay "" 0)).

(** The ledger fields that do not depend on the running capital. *)
Definition entry_of (df : list Day) (ps : Z) (i : nat) : string * string * Q * Q :=
  (date_at df i, "Sell Call"%string, close_at df i,
   close_at df i * (2 # 100) * inject_Z ps).

Definition fields_of (t : Trade) : string * string * Q * Q :=
  (trade_date t, action t, trade_price t, premium t).

(** A month of rising closes, 100 to 130. *)
Definition rising_month : list Day :=
  map (fun i => mkDay "day" (100 + inject_Z (Z.of_nat i))) (seq 0 31).

(** Three closes, for the metrics. *)
Definition three_days : list Day :=
  [mkDay "2024-01-02" 100; mkDay "2024-01-03" 110; mkDay "2024-01-04" 99].

End Backtest.

(** The metrics of [run_backtest], over the reals. *)
Module Metrics.
Local Open Scope R_scope.

(** [df["close"].pct_change().dropna()]. *)
Fixpoint pct_change (closes : list R) : list R :=
  match closes with
  | previous :: (current :: _) as rest =>
      (current - previous) / previous :: pct_change rest
  | _ => []
  end.

Definition Rsum (values : list R) : R := fold_right Rplus 0 values.

Definition mean (values : list R) : R := Rsum values / INR (List.length values).

(** [series.std()]: the sample standard deviation (one degree of freedom
    removed). *)
Definition std (values : list R) : R :=
  let m := mean values in
  sqrt (Rsum (map (fun x => (x - m) * (x - m)) values)
        / (INR (List.length values) - 1)).

Definition total_return (initial_capital final_capital : R) : R :=
  (final_capital - initial_capital) / initial_capital * 100.

Definition annualized_return (total_return : R) (days : nat) : R :=
  total_return * (365 / INR days).

Definition risk_free_rate : R := 2 / 100.

Definition sharpe_ratio (initial_capital final_capital : R) (closes : list R) : R :=
  let daily_returns := pct_change closes in
  let days := List.length closes in
  let annualized_return :=
    annualized_return (total_return initial_capital final_capital) days in
  (annualized_return - risk_free_rate) / (std daily_returns * sqrt 252).

(** The Sharpe ratio as the specification words it, with 2.0 subtracted from
    the annualized percent return. *)
Definition sharpe_ratio_spec (initial_capital final_capital : R) (closes : list R) : R :=
  let annualized_return_pct :=
    annualized_return (total_return initial_capital final_capital)
                      (List.length closes) in
  (annualized_return_pct - 2) / (std (pct_change closes) * sqrt 252).

End Metrics.

(** A short put, for the examples of the payoff engine. *)
Definition short_put : Payoff.Leg :=
  Payoff.mkLeg (Some "put"%string) (Some 95) (Some (-1)) (Some (3 # 2)).

(** ** Backtest runner: strategy catalogue and the other simulation branches *)

(** [x] to the power [n], for the bounds on compounded capital. *)
Fixpoint qpow (x : Q) (n : nat) : Q :=
  match n with
  | O => 1
  | S n => x * qpow x n
  end.

Module Simulation.
Import Backtest.

(** The catalogue built by [get_strategies]: the id and the name of each
    template.  The description and the parameters of a template are not read
    by the backtest and are left out. *)
Record Strategy : Type := mkStrategy {
  strategy_id : string;
  name : string
}.

Definition strategies : list Strategy :=
  [ mkStrategy "covered-call" "Covered Call";
    mkStrategy "cash-secured-put" "Cash-Secured Put";
    mkStrategy "iron-condor" "Iron Condor";
    mkStrategy "bull-call-spread" "Bull Call Spread";
    mkStrategy "bear-put-spread" "Bear Put Spread";
    mkStrategy "calendar-spread" "Calendar Spread";
    mkStrategy "butterfly-spread" "Butterfly Spread";
    mkStrategy "straddle" "Straddle";
    mkStrategy "strangle" "Strangle";
    mkStrategy "diagonal-spread" "Diagonal Spread" ].

(** [next((s for s in strategies if s["id"] == strategy_id), None)]. *)
Definition find_strategy (id : string) : option Strategy :=
  find (fun s => String.eqb (strategy_id s) id) strategies.

(** [sub in s] on strings. *)
Fixpoint contains (sub s : string) : bool :=
  String.prefix sub s ||
  match s with
  | EmptyString => false
  | String _ rest => contains sub rest
  end.

(** [range(0, stop, step)] for a positive [step]; [stop] may be negative. *)
Definition range_step (stop : Z) (step : nat) : list nat :=
  map (fun k => (k * step)%nat)
      (seq 0 (Z.to_nat ((stop + Z.of_nat step - 1) / Z.of_nat step))).

(** A ledger entry of the Iron Condor branch. *)
Record Cycle : Type := mkCycle {
  cycle_date : string;
  cycle_action : string;
  entry_price : Q;
  exit_price : Q;
  profit : Q;
  cycle_capital : Q
}.

(** [abs(price_change_pct) < 5] with
    [price_change_pct = (exit_price - entry_price) / entry_price * 100] on
    numpy floats: a zero entry price gives an infinity or a NaN, for which
    the comparison is false. *)
Definition small_move (entry_price exit_price : Q) : bool :=
  if Qeq_bool entry_price 0 then false
  else negb (Qle_bool 5 (Qabs ((exit_price - entry_price) / entry_price * 100))).

(** The state of the loop: whether [break] was executed, the capital and the
    ledger. *)
Record CondorState : Type := mkCondorState {
  broke : bool;
  condor_capital : Q;
  condor_history : list Cycle
}.

(** One iteration of [for i in range(0, len(df) - 30, 30)]. *)
Definition condor_step (df : list Day) (state : CondorState) (i : nat) : M CondorState :=
  if broke state then Return state
  else if Nat.leb (List.length df) (i + 30) then
    Return (mkCondorState true (condor_capital state) (condor_history state))
  else
    entry <- iloc df i ;;
    exit <- iloc df (i + 30) ;;
    let capital := condor_capital state in
    let profit :=
      if small_move (close entry) (close exit)
      then capital * (3 # 100)
      else - capital * (5 # 100) in
    let capital := capital + profit in
    Return (mkCondorState false capital
              (condor_history state ++
                 [mkCycle (date exit) "Iron Condor Cycle" (close entry) (close exit)
                          profit capital])).

(** The branch [strategy["name"] == "Iron Condor"]; the final capital is the
    capital of the last state. *)
Definition iron_condor (df : list Day) (initial_capital : Q) : M CondorState :=
  fold_left (fun acc i => state <- acc ;; condor_step df state i)
            (range_step (Z.of_nat (List.length df) - 30) 30)
            (Return (mkCondorState false initial_capital [])).

(** A ledger entry of the default branch. *)
Record Position : Type := mkPosition {
  position_date : string;
  position_action : string;
  position_price : Q;
  position_capital : Q
}.

Record Hold : Type := mkHold {
  hold_final_capital : Q;
  hold_history : list Position
}.

(** The default branch.  [returns] is a quotient of numpy floats: for a zero
    buy price it is an infinity or a NaN, which a rational cannot hold; the
    model answers [None] there. *)
Definition buy_and_hold (name : string) (df : list Day) (initial_capital : Q)
    : M (option Hold) :=
  first <- iloc df 0 ;;
  last <- iloc_last df ;;
  let buy_price := close first in
  let sell_price := close last in
  if Qeq_bool buy_price 0 then Return None
  else
    let returns := (sell_price - buy_price) / buy_price in
    let pnl := initial_capital * returns in
    let pnl :=
      if contains "Bull" name then pnl * (12 # 10)
      else if contains "Bear" name then pnl * (8 # 10)
      else pnl in
    let final_capital := initial_capital + pnl in
    Return (Some (mkHold final_capital
                    [mkPosition (date first) "Entry" buy_price initial_capital;
                     mkPosition (date last) "Exit" sell_price final_capital])).

(** The ledger and the final capital of a run, whichever branch produced
    them. *)
Inductive Ledger : Type :=
| SellCalls (trades : list Trade)
| Cycles (cycles : list Cycle)
| Positions (positions : list Position).

Record Run : Type := mkRun {
  run_strategy_name : string;
  run_final_capital : Q;
  run_trade_history : Ledger
}.

(** The dispatch on [strategy["name"]]. *)
Definition simulate (name : string) (df : list Day) (initial_capital : Q)
    : M (option Run) :=
  if String.eqb name "Covered Call" then
    r <- covered_call df initial_capital ;;
    Return (Some (mkRun name (final_capital r) (SellCalls (trade_history r))))
  else if String.eqb name "Iron Condor" then
    st <- iron_condor df initial_capital ;;
    Return (Some (mkRun name (condor_capital st) (Cycles (condor_history st))))
  else
    h <- buy_and_hold name df initial_capital ;;
    Return (match h with
            | Some h => Some (mkRun name (hold_final_capital h) (Positions (hold_history h)))
            | None => None
            end).

(** What [fetch_market_data] handed back. *)
Inductive MarketData : Type :=
| FetchError (msg : string)
| NoHistory
| History (day : list Day).

(** How [run_backtest] ends, up to the computation of the metrics: an error
    payload, an HTTP 500 for an exception (a [KeyError] on the close column
    of an empty frame included), a run, or a run whose numbers are not
    finite. *)
Inductive Outcome : Type :=
| Ran (run : Run)
| NotFinite
| Error (msg : string)
| Failed (e : exn)
| FailedKeyError (key : string).

Definition run_backtest (market_data : MarketData) (id : string) (initial_capital : Q)
    : Outcome :=
  match market_data with
  | FetchError msg => Error msg
  | NoHistory => Error "No historical data available for backtest period"
  | History [] => FailedKeyError "close"
  | History df =>
      match find_strategy id with
      | None => Error "Strategy not found"
      | Some strategy =>
          match simulate (name strategy) df initial_capital with
          | Return (Some run) => Ran run
          | Return None => NotFinite
          | Raise e => Failed e
          end
      end
  end.

(** The fields of a cycle entry that do not depend on the capital, and what
    they are for the window that starts at index [i]. *)
Definition cycle_fields (c : Cycle) : string * string * Q * Q :=
  (cycle_date c, cycle_action c, entry_price c, exit_price c).

Definition window_fields (df : list Day) (i : nat) : string * string * Q * Q :=
  (date_at df (i + 30), "Iron Condor Cycle"%string, close_at df i, close_at df (i + 30)).

(** The profit of a cycle is 3 percent of the capital before it, or a loss
    of 5 percent of it. *)
Definition profit_rule (c : Cycle) : Prop :=
  (profit c == (3 # 100) * (cycle_capital c - profit c) \/
   profit c == - (5 # 100) * (cycle_capital c - profit c)).

(** The indices at which the Iron Condor windows start. *)
Definition window_starts (df : list Day) : list nat :=
  map (fun k => (k * 30)%nat) (seq 0 ((List.length df - 1) / 30)).

(** The multiplier the default branch applies to the buy-and-hold P&L. *)
Definition multiplier (name : string) : Q :=
  if contains "Bull" name then 12 # 10
  else if contains "Bear" name then 8 # 10
  else 1.

End Simulation.

(** ** Backtest runner: maximum drawdown *)

Module Drawdown.

(** [a / b] on pandas columns: a zero divisor yields an infinity or a NaN,
    which a rational cannot hold; the model answers [None] there. *)
Definition np_div (a b : Q) : option Q :=
  if Qeq_bool b 0 then None else Some (a / b).

(** [df["close"].pct_change().dropna()]. *)
Fixpoint pct_change (closes : list Q) : option (list Q) :=
  match closes with
  | previous :: (current :: _) as rest =>
      match np_div (current - previous) previous, pct_change rest with
      | Some r, Some returns => Some (r :: returns)
      | _, _ => None
      end
  | _ => Some []
  end.

(** [series.cumprod()] and [series.cummax()]. *)
Fixpoint cumprod_from (acc : Q) (values : list Q) : list Q :=
  match values with
  | [] => []
  | x :: rest => acc * x :: cumprod_from (acc * x) rest
  end.

Definition cumprod (values : list Q) : list Q :=
  match values with
  | [] => []
  | x :: rest => x :: cumprod_from x rest
  end.

Fixpoint cummax_from (acc : Q) (values : list Q) : list Q :=
  match values with
  | [] => []
  | x :: rest => py_max2 acc x :: cummax_from (py_max2 acc x) rest
  end.

Definition cummax (values : list Q) : list Q :=
  match values with
  | [] => []
  | x :: rest => x :: cummax_from x rest
  end.

(** [(cum_returns / running_max) - 1], element by element. *)
Fixpoint drawdown (cum_returns running_max : list Q) : option (list Q) :=
  match cum_returns, running_max with
  | c :: cs, m :: ms =>
      match np_div c m, drawdown cs ms with
      | Some q, Some rest => Some (q - 1 :: rest)
      | _, _ => None
      end
  | _, _ => Some []
  end.

(** [series.min()]: NaN, here [None], on an empty series. *)
Definition series_min (values : list Q) : option Q :=
  match values with
  | [] => None
  | x :: rest => Some (fold_left py_min2 rest x)
  end.

(** The drawdown series and [max_drawdown_pct] of [run_backtest]. *)
Definition drawdown_series (closes : list Q) : option (list Q) :=
  match pct_change closes with
  | Some daily_returns =>
      let cum_returns := cumprod (map (fun r => 1 + r) daily_returns) in
      let running_max := cummax cum_returns in
      drawdown cum_returns running_max
  | None => None
  end.

Definition max_drawdown (closes : list Q) : option Q :=
  match drawdown_series closes with
  | Some series =>
      match series_min series with
      | Some lowest => Some (lowest * 100)
      | None => None
      end
  | None => None
  end.

(** A close over the highest close so far, minus one. *)
Definition below_peak (x : Q * Q) : Q := fst x / snd x - 1.

End Drawdown.

(** ** Quotes: the symbols parameter of [get_quotes] and [fetch_quotes] *)

Module Quotes.

(** [s.split(sep)] for a one-character separator. *)
Fixpoint split_on (sep : ascii) (s : string) : list string :=
  match s with
  | EmptyString => [EmptyString]
  | String c rest =>
      if Ascii.eqb c sep then EmptyString :: split_on sep rest
      else
        match split_on sep rest with
        | piece :: pieces => String c piece :: pieces
        | [] => [String c EmptyString]
        end
  end.

(** [sep.join(pieces)]. *)
Fixpoint join (sep : string) (pieces : list string) : string :=
  match pieces with
  | [] => EmptyString
  | [piece] => piece
  | piece :: rest => piece ++ sep ++ join sep rest
  end.

(** [c.isspace()] on ASCII text: tab, line feed, vertical tab, form feed,
    carriage return, the four separators 28 to 31 and the space. *)
Definition is_space (c : ascii) : bool :=
  existsb (Ascii.eqb c)
          ["009"; "010"; "011"; "012"; "013"; "028"; "029"; "030"; "031"; " "]%char.

(** [s.lstrip()], [s.rstrip()] and [s.strip()]. *)
Fixpoint lstrip (s : string) : string :=
  match s with
  | EmptyString => EmptyString
  | String c rest => if is_space c then lstrip rest else s
  end.

Fixpoint rstrip (s : string) : string :=
  match s with
  | EmptyString => EmptyString
  | String c rest =>
      match rstrip rest with
      | EmptyString => if is_space c then EmptyString else String c EmptyString
      | kept => String c kept
      end
  end.

Definition strip (s : string) : string := lstrip (rstrip s).

(** [symbols_list] of [get_quotes] and the ["symbols"] parameter that
    [fetch_quotes] sends upstream. *)
Definition symbols_list (symbols : string) : list string :=
  map strip (split_on "," symbols).

Definition symbols_param (symbols : list string) : string :=
  join "," symbols.

(** The character does not occur in the string. *)
Fixpoint free_of (sep : ascii) (s : string) : bool :=
  match s with
  | EmptyString => true
  | String c rest => negb (Ascii.eqb c sep) && free_of sep rest
  end.

(** How often the character occurs in the string. *)
Fixpoint occurrences (sep : ascii) (s : string) : nat :=
  match s with
  | EmptyString => O
  | String c rest => ((if Ascii.eqb c sep then 1 else 0) + occurrences sep rest)%nat
  end.

End Quotes.

(** ** Trades: [submit_trade] *)

Module Trades.

Section WithLegs.
(** A leg of the submitted trade is stored as it comes. *)
Variable Leg : Type.

Record Request : Type := mkRequest {
  strategy_id : option string;
  symbol : option string;
  legs : option (list Leg)
}.

(** The stored and returned record; [_id] is set by [insert_one]. *)
Record Trade : Type := mkTrade {
  id : string;
  trade_strategy_id : string;
  trade_symbol : string;
  trade_legs : list Leg;
  status : string;
  created_at : string;
  _id : option string
}.

(** [submit_trade] with the values it draws from its environment as
    arguments: the fresh uuid, the current time and the object id that
    [insert_one] assigns.  It hands back the response and the documents it
    inserted into [db.trades]. *)
Definition submit_trade (uuid now object_id : string) (request : Request)
    : response Trade * list Trade :=
  let strategy_id := strategy_id request in
  let symbol := symbol request in
  let legs := get (legs request) [] in
  if negb (truthy_str strategy_id) || negb (truthy_str symbol) || negb (truthy_list legs)
  then (ErrorPayload "Missing required parameters", [])
  else
    let trade := mkTrade uuid (get strategy_id ""%string) (get symbol ""%string) legs
                         "simulated" now None in
    (Payload (mkTrade uuid (get strategy_id ""%string) (get symbol ""%string) legs
                      "simulated" now (Some object_id)),
     [trade]).

End WithLegs.

End Trades.

(** * Lemmas and theorems *)

(** ** Sums, maxima and sample points: shared lemmas *)

Lemma fold_left_Qplus_sum {A : Type} (f : A -> Q) (l : list A) (a : Q) :
  fold_left (fun acc x => acc + f x) l a == a + Qsum (map f l).
Proof.
  revert a; induction l as [|x l IH]; intros a; simpl.
  - ring.
  - rewrite IH. ring.
Qed.

Lemma Qsum_cons (x : Q) (l : list Q) : Qsum (x :: l) = x + Qsum l.
Proof. reflexivity. Qed.

Lemma Qsum_app (l1 l2 : list Q) : Qsum (l1 ++ l2) == Qsum l1 + Qsum l2.
Proof.
  induction l1 as [|x l1 IH]; simpl.
  - ring.
  - rewrite IH. ring.
Qed.

Lemma py_max2_cases (a b : Q) :
  (py_max2 a b = a /\ b <= a) \/ (py_max2 a b = b /\ a < b).
Proof.
  unfold py_max2. destruct (a ?= b) eqn:E.
  - left. split; [reflexivity|]. apply Qeq_alt in E. rewrite E. apply Qle_refl.
  - right. split; [reflexivity|]. now apply Qlt_alt.
  - left. split; [reflexivity|]. apply Qgt_alt in E. now apply Qlt_le_weak.
Qed.

Lemma py_min2_cases (a b : Q) :
  (py_min2 a b = a /\ a <= b) \/ (py_min2 a b = b /\ b < a).
Proof.
  unfold py_min2. destruct (b ?= a) eqn:E.
  - left. split; [reflexivity|]. apply Qeq_alt in E. rewrite E. apply Qle_refl.
  - right. split; [reflexivity|]. now apply Qlt_alt.
  - left. split; [reflexivity|]. apply Qgt_alt in E. now apply Qlt_le_weak.
Qed.

Lemma py_max2_Qmax (a b : Q) : py_max2 a b == Qmax a b.
Proof.
  destruct (py_max2_cases a b) as [[-> H]|[-> H]].
  - symmetry. now apply Q.max_l.
  - symmetry. apply Q.max_r. now apply Qlt_le_weak.
Qed.

Lemma fold_py_max2_spec (xs : list Q) (x : Q) :
  (forall y, In y (x :: xs) -> y <= fold_left py_max2 xs x) /\
  In (fold_left py_max2 xs x) (x :: xs).
Proof.
  revert x; induction xs as [|a xs IH]; intros x; simpl.
  - split; [intros y [<-|[]]; apply Qle_refl | now left].
  - destruct (IH (py_max2 x a)) as [Hub Hin]. simpl in Hub, Hin.
    assert (Hx : x <= py_max2 x a /\ a <= py_max2 x a).
    { destruct (py_max2_cases x a) as [[-> H]|[-> H]];
        split; try apply Qle_refl; try assumption; now apply Qlt_le_weak. }
    split.
    + intros y [<-|[<-|Hy]].
      * eapply Qle_trans; [apply Hx | apply Hub; now left].
      * eapply Qle_trans; [apply Hx | apply Hub; now left].
      * apply Hub. now right.
    + destruct Hin as [Hin|Hin]; [|now right; right].
      rewrite <- Hin.
      destruct (py_max2_cases x a) as [[-> _]|[-> _]]; [now left | now right; left].
Qed.

Lemma fold_py_min2_spec (xs : list Q) (x : Q) :
  (forall y, In y (x :: xs) -> fold_left py_min2 xs x <= y) /\
  In (fold_left py_min2 xs x) (x :: xs).
Proof.
  revert x; induction xs as [|a xs IH]; intros x; simpl.
  - split; [intros y [<-|[]]; apply Qle_refl | now left].
  - destruct (IH (py_min2 x a)) as [Hlb Hin]. simpl in Hlb, Hin.
    assert (Hx : py_min2 x a <= x /\ py_min2 x a <= a).
    { destruct (py_min2_cases x a) as [[-> H]|[-> H]];
        split; try apply Qle_refl; try assumption; now apply Qlt_le_weak. }
    split.
    + intros y [<-|[<-|Hy]].
      * eapply Qle_trans; [apply Hlb; now left | apply Hx].
      * eapply Qle_trans; [apply Hlb; now left | apply Hx].
      * apply Hlb. now right.
    + destruct Hin as [Hin|Hin]; [|now right; right].
      rewrite <- Hin.
      destruct (py_min2_cases x a) as [[-> _]|[-> _]]; [now left | now right; left].
Qed.

Lemma linspace_length (a b : Q) (n : nat) : List.length (linspace a b n) = n.
Proof. unfold linspace. now rewrite length_map, length_seq. Qed.

Lemma linspace_nth (a b : Q) (n i : nat) :
  (i < n)%nat ->
  nth_error (linspace a b n) i =
  Some (a + inject_Z (Z.of_nat i) * ((b - a) / (inject_Z (Z.of_nat n) - 1))).
Proof.
  intros Hi. unfold linspace.
  rewrite nth_error_map, nth_error_seq.
  destruct (Nat.ltb_spec i n) as [_|H]; [reflexivity | lia].
Qed.

(** ** Payoff curve engine *)

Section PayoffFacts.
Import Payoff.

Lemma Qeq_bool_sub_zero (x y : Q) : Qeq_bool (x - y) 0 = Qeq_bool x y.
Proof.
  destruct (Qeq_bool x y) eqn:E.
  - apply Qeq_bool_iff in E. apply Qeq_bool_iff. rewrite E. ring.
  - apply not_true_iff_false. intros H. apply Qeq_bool_iff in H.
    apply not_true_iff_false in E. apply E. apply Qeq_bool_iff.
    setoid_replace x with ((x - y) + y) by ring. rewrite H. ring.
Qed.

Lemma breakeven_step_spec (pre : list Point) (a b : Point) (rest : list Point)
    (found : list Q) :
  breakeven_step (pre ++ a :: b :: rest) found (S (List.length pre)) =
  Return (found ++ segment_breakeven (a, b)).
Proof.
  assert (Ha : nth_error (pre ++ a :: b :: rest) (S (List.length pre) - 1) = Some a).
  { replace (S (List.length pre) - 1)%nat with (List.length pre + 0)%nat by lia.
    now rewrite nth_error_app2, Nat.add_comm, Nat.add_sub by lia. }
  assert (Hb : nth_error (pre ++ a :: b :: rest) (S (List.length pre)) = Some b).
  { replace (S (List.length pre)) with (List.length pre + 1)%nat by lia.
    now rewrite nth_error_app2, Nat.add_comm, Nat.add_sub by lia. }
  unfold breakeven_step, at_index. rewrite Ha, Hb.
  simpl. unfold py_div. rewrite Qeq_bool_sub_zero.
  destruct (crosses_zero (pt_pnl a) (pt_pnl b)); simpl.
  - destruct (Qeq_bool (pt_pnl b) (pt_pnl a)); simpl.
    + now rewrite app_nil_r.
    + reflexivity.
  - now rewrite app_nil_r.
Qed.

Lemma find_breakevens_from (rest pre : list Point) (a : Point) (found : list Q) :
  fold_left
    (fun acc i => found <- acc ;; breakeven_step (pre ++ a :: rest) found i)
    (seq (S (List.length pre)) (List.length rest)) (Return found) =
  Return (found ++ breakevens_spec (a :: rest)).
Proof.
  revert pre a found; induction rest as [|b rest IH]; intros pre a found.
  - simpl. now rewrite app_nil_r.
  - cbn [List.length seq fold_left bind].
    rewrite breakeven_step_spec.
    replace (pre ++ a :: b :: rest) with ((pre ++ [a]) ++ b :: rest)
      by now rewrite <- app_assoc.
    replace (S (S (List.length pre))) with (S (List.length (pre ++ [a])))
      by (rewrite length_app; simpl; lia).
    rewrite IH. unfold breakevens_spec. cbn [adjacent_pairs flat_map].
    now rewrite <- app_assoc.
Qed.

Lemma find_breakevens_total (curve : list Point) :
  find_breakevens curve = Return (breakevens_spec curve).
Proof.
  unfold find_breakevens. destruct curve as [|a rest]; [reflexivity|].
  replace (List.length (a :: rest) - 1)%nat with (List.length rest)
    by (simpl; lia).
  apply (find_breakevens_from rest [] a []).
Qed.

Lemma py_max_spec (l : list Q) (m : Q) :
  py_max l = Return m -> (forall y, In y l -> y <= m) /\ In m l.
Proof.
  destruct l as [|x xs]; simpl; [discriminate|].
  intros [= <-]. apply fold_py_max2_spec.
Qed.

Lemma py_min_spec (l : list Q) (m : Q) :
  py_min l = Return m -> (forall y, In y l -> m <= y) /\ In m l.
Proof.
  destruct l as [|x xs]; simpl; [discriminate|].
  intros [= <-]. apply fold_py_min2_spec.
Qed.

Lemma sampled_curve_length (P r : Q) (ls : list Leg) :
  List.length (sampled_curve P r ls) = 50%nat.
Proof.
  unfold sampled_curve, build_curve, sample_prices.
  now rewrite length_map, linspace_length.
Qed.

(** The computation after the parameter check never raises. *)
Lemma compute_returns (s : string) (P r : Q) (ls : list Leg) :
  exists hi lo,
    compute s P ls r =
    Return (mkResult s P (sampled_curve P r ls) hi lo
                     (breakevens_spec (sampled_curve P r ls)) (initial_cost ls)) /\
    py_max (map pt_pnl (sampled_curve P r ls)) = Return hi /\
    py_min (map pt_pnl (sampled_curve P r ls)) = Return lo.
Proof.
  unfold compute. fold (sample_prices P r). fold (sampled_curve P r ls).
  pose proof (sampled_curve_length P r ls) as Hlen.
  rewrite find_breakevens_total.
  destruct (map pt_pnl (sampled_curve P r ls)) as [|x xs] eqn:E.
  - apply (f_equal (@List.length Q)) in E. rewrite length_map, Hlen in E.
    discriminate.
  - exists (fold_left py_max2 xs x), (fold_left py_min2 xs x). now simpl.
Qed.

Lemma total_pnl_sum (cost : Q) (ls : list Leg) (p : Q) :
  total_pnl cost ls p == - cost + Qsum (map (leg_value_at p) ls).
Proof. unfold total_pnl. apply (fold_left_Qplus_sum (leg_value_at p)). Qed.

Lemma initial_cost_sum (ls : list Leg) :
  initial_cost ls == Qsum (map leg_entry_cost ls).
Proof.
  unfold initial_cost. rewrite (fold_left_Qplus_sum leg_entry_cost). ring.
Qed.

Lemma sampled_curve_nth (P r : Q) (ls : list Leg) (i : nat) :
  (i < 50)%nat ->
  let lo := P * (1 - r / 100) in
  let hi := P * (1 + r / 100) in
  let p := lo + inject_Z (Z.of_nat i) * ((hi - lo) / (inject_Z (Z.of_nat 50) - 1)) in
  nth_error (sampled_curve P r ls) i = Some (mkPoint p (total_pnl (initial_cost ls) ls p)).
Proof.
  intros Hi. unfold sampled_curve, build_curve, sample_prices, price_points.
  rewrite nth_error_map, linspace_nth by assumption. reflexivity.
Qed.

Lemma calculate_valid (s : string) (P : Q) (ls : list Leg) (ro : option Q) :
  s <> ""%string -> ~ P == 0 -> ls <> [] ->
  calculate_strategy_pnl (mkRequest (Some s) (Some P) (Some ls) ro) =
  match compute s P ls (get ro 20) with
  | Return r => Payload r
  | Raise e => Http500 e
  end.
Proof.
  intros Hs HP Hls. unfold calculate_strategy_pnl.
  cbn [strategy_type underlying_price legs price_range_pct get truthy_str].
  apply String.eqb_neq in Hs. rewrite Hs.
  unfold truthy_num.
  destruct (Qeq_bool P 0) eqn:E; [apply Qeq_bool_iff in E; contradiction|].
  destruct ls; [contradiction|]. reflexivity.
Qed.

Lemma crosses_zero_iff (pnl1 pnl2 : Q) :
  crosses_zero pnl1 pnl2 = true <-> sign_change pnl1 pnl2.
Proof.
  unfold crosses_zero, sign_change.
  rewrite orb_true_iff, !andb_true_iff, !Qle_bool_iff. reflexivity.
Qed.

Lemma adjacent_pairs_nth (curve : list Point) (i : nat) :
  nth_error (adjacent_pairs curve) i =
  match nth_error curve i, nth_error curve (S i) with
  | Some a, Some b => Some (a, b)
  | _, _ => None
  end.
Proof.
  revert i; induction curve as [|a [|b rest] IH]; intros i.
  - now destruct i.
  - destruct i as [|[|i]]; reflexivity.
  - destruct i as [|i]; [reflexivity|].
    change (adjacent_pairs (a :: b :: rest)) with ((a, b) :: adjacent_pairs (b :: rest)).
    cbn [nth_error]. rewrite IH. reflexivity.
Qed.

End PayoffFacts.

Section PayoffTheorems.
Import Payoff.

(** C1, as amended.  For every request with a non-empty strategy_type, an
    underlying price [P > 0], a non-empty list of legs and a range [r] (20
    when absent), the engine returns a curve of exactly 50 samples; sample
    [i] sits at [lo + i * (hi - lo) / 49] with [lo = P * (1 - r/100)] and
    [hi = P * (1 + r/100)], so the first sample is at [lo] and the last at
    [hi]; the P&L of every sample is minus the initial cost plus the sum over
    the legs of intrinsic value times quantity times 100; the initial cost is
    the sum over the legs of entry price times quantity times 100; the
    intrinsic value is [max(0, p - strike)] for a call and
    [max(0, strike - p)] for a put; [max_profit] and [max_loss] are the
    largest and the smallest sampled P&L. *)
Theorem payoff_curve_samples (s : string) (P : Q) (ls : list Leg) (ro : option Q) :
  s <> ""%string -> 0 < P -> ls <> [] ->
  let r := get ro 20 in
  let lo := P * (1 - r / 100) in
  let hi := P * (1 + r / 100) in
  exists res,
    calculate_strategy_pnl (mkRequest (Some s) (Some P) (Some ls) ro) = Payload res /\
    List.length (pnl_curve res) = 50%nat /\
    (forall i, (i < 50)%nat ->
       exists pt, nth_error (pnl_curve res) i = Some pt /\
         pt_price pt == lo + inject_Z (Z.of_nat i) * ((hi - lo) / 49) /\
         pt_pnl pt == - res_initial_cost res + Qsum (map (leg_value_at (pt_price pt)) ls)) /\
    (exists first last,
       nth_error (pnl_curve res) 0 = Some first /\ pt_price first == lo /\
       nth_error (pnl_curve res) 49 = Some last /\ pt_price last == hi) /\
    res_initial_cost res == Qsum (map leg_entry_cost ls) /\
    (forall k p, option_value_at_expiry "call" k p == Qmax 0 (p - k)) /\
    (forall k p, option_value_at_expiry "put" k p == Qmax 0 (k - p)) /\
    (forall pt, In pt (pnl_curve res) -> pt_pnl pt <= max_profit res) /\
    In (max_profit res) (map pt_pnl (pnl_curve res)) /\
    (forall pt, In pt (pnl_curve res) -> max_loss res <= pt_pnl pt) /\
    In (max_loss res) (map pt_pnl (pnl_curve res)).
Proof.
  intros Hs HP Hls r lo hi.
  assert (HP0 : ~ P == 0) by (intros E; rewrite E in HP; discriminate).
  rewrite (calculate_valid s P ls ro Hs HP0 Hls).
  destruct (compute_returns s P (get ro 20) ls) as (mp & ml & -> & Hmax & Hmin).
  fold r. eexists; split; [reflexivity|]. cbn [pnl_curve res_initial_cost max_profit max_loss].
  apply py_max_spec in Hmax. apply py_min_spec in Hmin.
  destruct Hmax as [Hub Hmaxin], Hmin as [Hlb Hminin].
  split; [apply sampled_curve_length|].
  split.
  { intros i Hi. eexists. split; [apply (sampled_curve_nth P r ls i Hi)|].
    cbn [pt_price pt_pnl]. split; [reflexivity|]. apply total_pnl_sum. }
  split.
  { eexists; eexists.
    split; [apply (sampled_curve_nth P r ls 0); lia|].
    split; [cbn [pt_price Z.of_nat inject_Z]; fold lo; ring|].
    split; [apply (sampled_curve_nth P r ls 49); lia|].
    cbn [pt_price]. fold lo hi. change (inject_Z (Z.of_nat 49)) with 49.
    change (inject_Z (Z.of_nat 50)) with 50. field. }
  split; [apply initial_cost_sum|].
  split; [intros k p; apply (py_max2_Qmax 0 (p - k))|].
  split; [intros k p; apply (py_max2_Qmax 0 (k - p))|].
  split; [intros pt Hpt; apply Hub; now apply in_map|].
  split; [assumption|].
  split; [intros pt Hpt; apply Hlb; now apply in_map | assumption].
Qed.

Lemma payoff_curve_samples_witness :
  exists res,
    calculate_strategy_pnl (long_call_request (Some "long_call"%string) 100) = Payload res /\
    List.length (pnl_curve res) = 50%nat.
Proof.
  destruct (payoff_curve_samples "long_call" 100 [long_call] None) as (res & H & Hlen & _).
  - discriminate.
  - reflexivity.
  - discriminate.
  - exists res. split; [exact H | exact Hlen].
Defined.

(** C1 as stated fails: a request with a positive underlying price, one leg
    and a range but no strategy_type gets the error payload and no curve. *)
Lemma payoff_curve_needs_strategy_type :
  0 < 100 /\ [long_call] <> [] /\
  calculate_strategy_pnl (mkRequest None (Some 100) (Some [long_call]) (Some 20)) =
    ErrorPayload "Missing required parameters" /\
  ~ exists res,
      calculate_strategy_pnl (mkRequest None (Some 100) (Some [long_call]) (Some 20)) =
        Payload res /\
      List.length (pnl_curve res) = 50%nat.
Proof.
  split; [reflexivity|]. split; [discriminate|]. split; [reflexivity|].
  intros (res & H & _). discriminate H.
Qed.

(** C4.  For the single long call (strike 100, entry price 2, quantity 1) at
    underlying price 100 with the default range, under any non-empty
    strategy_type: [total_pnl] is -200 at price 100 and 800 at price 110, the
    samples are 40/49 apart, and the returned breakeven_points contain a value
    within 40/49 of 102 (it is 102 itself, in exact arithmetic). *)
Theorem long_call_pnl_and_breakeven (s : string) :
  s <> ""%string ->
  total_pnl (initial_cost [long_call]) [long_call] 100 == -200 /\
  total_pnl (initial_cost [long_call]) [long_call] 110 == 800 /\
  exists res,
    calculate_strategy_pnl (long_call_request (Some s) 100) = Payload res /\
    (forall i, (i < 49)%nat ->
       exists a b, nth_error (pnl_curve res) i = Some a /\
                   nth_error (pnl_curve res) (S i) = Some b /\
                   pt_price b - pt_price a == 40 # 49) /\
    exists b, In b (breakeven_points res) /\
              Qabs (b - 102) <= 40 # 49 /\ b == 102.
Proof.
  intros Hs.
  split; [reflexivity|]. split; [reflexivity|].
  unfold long_call_request.
  rewrite (calculate_valid s 100 [long_call] None Hs) by discriminate.
  destruct (compute_returns s 100 (get None 20) [long_call]) as (mp & ml & -> & _ & _).
  eexists; split; [reflexivity|]. cbn [pnl_curve breakeven_points]. split.
  - intros i Hi. eexists; eexists.
    split; [apply sampled_curve_nth; lia|].
    split; [apply sampled_curve_nth; lia|].
    cbn [pt_price get]. rewrite Nat2Z.inj_succ. unfold Z.succ. rewrite inject_Z_plus.
    change (inject_Z (Z.of_nat 50)) with 50. change (inject_Z 1) with 1. field.
  - eexists. split; [vm_compute; left; reflexivity|].
    split; [vm_compute; discriminate | reflexivity].
Qed.

Lemma long_call_pnl_and_breakeven_witness :
  exists res,
    calculate_strategy_pnl (long_call_request (Some "long_call"%string) 100) = Payload res /\
    exists b, In b (breakeven_points res) /\ Qabs (b - 102) <= 40 # 49.
Proof.
  destruct (long_call_pnl_and_breakeven "long_call") as (_ & _ & res & H & _ & b & Hb & Hd & _).
  - discriminate.
  - exists res. split; [exact H|]. exists b. split; [exact Hb | exact Hd].
Defined.

Lemma calculate_cases (req : Request) :
  let rejected :=
    strategy_type req = None \/ strategy_type req = Some ""%string \/
    get (underlying_price req) 0 == 0 \/ get (legs req) [] = [] in
  (rejected /\ calculate_strategy_pnl req = ErrorPayload "Missing required parameters") \/
  (~ rejected /\
   exists res, calculate_strategy_pnl req = Payload res /\
               breakeven_points res = breakevens_spec (pnl_curve res)).
Proof.
  destruct req as [st up lg ro]. cbn [strategy_type underlying_price legs].
  unfold calculate_strategy_pnl.
  cbn [strategy_type underlying_price legs price_range_pct].
  destruct st as [s|]; [|left; split; [now left | reflexivity]].
  cbn [truthy_str]. destruct (String.eqb_spec s "") as [->|Hs];
    [left; split; [now right; left | reflexivity]|].
  unfold truthy_num.
  destruct (Qeq_bool (get up 0) 0) eqn:E;
    [left; split; [right; right; left; now apply Qeq_bool_iff | reflexivity]|].
  destruct (get lg []) as [|l ls] eqn:El;
    [left; split; [now right; right; right | reflexivity]|].
  right. split.
  - intros [H|[H|[H|H]]]; try discriminate.
    + now injection H.
    + apply Qeq_bool_iff in H. congruence.
  - cbn [negb orb truthy_list get].
    destruct (compute_returns s (get up 0) (get ro 20) (l :: ls)) as (mp & ml & -> & _ & _).
    eexists; split; reflexivity.
Qed.



(** C8.  The breakeven scan never raises and returns, for the adjacent pairs
    of samples in order, the interpolated root
    [p1 + (p2 - p1) * (-pnl1) / (pnl2 - pnl1)] of every pair whose P&L crosses
    or touches zero with [pnl2 <> pnl1], and nothing for any other pair: a
    flat pair ([pnl2 == pnl1], two adjacent zero samples included) gives no
    entry and no division by zero.  The breakeven_points of every result are
    this scan of its curve, and no request makes the engine fail. *)
Theorem breakeven_scan_total (curve : list Point) :
  find_breakevens curve = Return (breakevens_spec curve) /\
  (forall i, nth_error (adjacent_pairs curve) i =
             match nth_error curve i, nth_error curve (S i) with
             | Some a, Some b => Some (a, b)
             | _, _ => None
             end) /\
  (forall a b, sign_change (pt_pnl a) (pt_pnl b) -> ~ pt_pnl b == pt_pnl a ->
     segment_breakeven (a, b) =
     [pt_price a + (pt_price b - pt_price a) * (- pt_pnl a) / (pt_pnl b - pt_pnl a)]) /\
  (forall a b, pt_pnl b == pt_pnl a -> segment_breakeven (a, b) = []) /\
  (forall a b, ~ sign_change (pt_pnl a) (pt_pnl b) -> segment_breakeven (a, b) = []) /\
  (forall p1 p2, find_breakevens [mkPoint p1 0; mkPoint p2 0] = Return []) /\
  (forall req res, calculate_strategy_pnl req = Payload res ->
     breakeven_points res = breakevens_spec (pnl_curve res)) /\
  (forall req e, calculate_strategy_pnl req <> Http500 e).
Proof.
  split; [apply find_breakevens_total|].
  split; [apply adjacent_pairs_nth|].
  split.
  { intros a b Hs Hne. unfold segment_breakeven.
    apply crosses_zero_iff in Hs. rewrite Hs.
    destruct (Qeq_bool (pt_pnl b) (pt_pnl a)) eqn:E;
      [apply Qeq_bool_iff in E; contradiction | reflexivity]. }
  split.
  { intros a b Heq. unfold segment_breakeven.
    apply Qeq_bool_iff in Heq. rewrite Heq. now rewrite andb_false_r. }
  split.
  { intros a b Hs. unfold segment_breakeven.
    destruct (crosses_zero (pt_pnl a) (pt_pnl b)) eqn:E;
      [apply crosses_zero_iff in E; contradiction | reflexivity]. }
  split; [intros p1 p2; now rewrite find_breakevens_total|].
  split.
  - intros req res H.
    destruct (calculate_cases req) as [[_ He]|[_ (res' & He & Hb)]]; congruence.
  - intros req e H.
    destruct (calculate_cases req) as [[_ He]|[_ (res' & He & Hb)]]; congruence.
Qed.

Lemma breakeven_scan_total_witness :
  segment_breakeven (mkPoint 101 (-100), mkPoint 103 100) = [101 + (103 - 101) * (- -100) / (100 - -100)] /\
  segment_breakeven (mkPoint 101 0, mkPoint 103 0) = [].
Proof.
  destruct (breakeven_scan_total []) as (_ & _ & Hroot & Hflat & _).
  split.
  - apply (Hroot (mkPoint 101 (-100)) (mkPoint 103 100)).
    + left. split; discriminate.
    + discriminate.
  - apply (Hflat (mkPoint 101 0) (mkPoint 103 0)). reflexivity.
Defined.

(** C10.  A leg whose option_type is neither "call" nor "put" (a missing
    option_type reads as the empty string) raises no error: its value at
    expiry is 0 at every price, and in the curve of any otherwise valid
    request every sample equals the P&L of the remaining legs minus the leg's
    entry cost [price * quantity * 100]. *)
Theorem unknown_leg_contributes_entry_cost
    (s : string) (P : Q) (ro : option Q) (l1 l2 : list Leg) (leg : Leg) :
  s <> ""%string -> ~ P == 0 ->
  get (option_type leg) ""%string <> "call"%string ->
  get (option_type leg) ""%string <> "put"%string ->
  (forall k p, option_value_at_expiry (get (option_type leg) ""%string) k p = 0) /\
  exists res,
    calculate_strategy_pnl (mkRequest (Some s) (Some P) (Some (l1 ++ leg :: l2)) ro)
      = Payload res /\
    List.length (pnl_curve res) = 50%nat /\
    forall pt, In pt (pnl_curve res) ->
      pt_pnl pt ==
      total_pnl (initial_cost (l1 ++ l2)) (l1 ++ l2) (pt_price pt)
      - get (price leg) 0 * get (quantity leg) 0 * 100.
Proof.
  intros Hs HP Hc Hp.
  assert (Hv : forall k p,
             option_value_at_expiry (get (option_type leg) ""%string) k p = 0).
  { intros k p. unfold option_value_at_expiry.
    apply String.eqb_neq in Hc, Hp. now rewrite Hc, Hp. }
  split; [exact Hv|].
  rewrite (calculate_valid s P (l1 ++ leg :: l2) ro Hs HP)
    by (now destruct l1).
  destruct (compute_returns s P (get ro 20) (l1 ++ leg :: l2)) as (mp & ml & -> & _ & _).
  eexists; split; [reflexivity|]. cbn [pnl_curve].
  split; [apply sampled_curve_length|].
  intros pt Hpt. unfold sampled_curve, build_curve in Hpt.
  apply in_map_iff in Hpt. destruct Hpt as (p & <- & _). cbn [pt_pnl pt_price].
  rewrite !total_pnl_sum, !initial_cost_sum, !map_app, !Qsum_app.
  cbn [map]. change (leg_value_at p leg) with
    (option_value_at_expiry (get (option_type leg) ""%string) (get (strike leg) 0) p
     * get (quantity leg) 0 * 100).
  rewrite Hv, !Qsum_cons. unfold leg_entry_cost at 2. ring.
Qed.

Lemma unknown_leg_contributes_entry_cost_witness :
  exists res,
    calculate_strategy_pnl
      (mkRequest (Some "custom"%string) (Some 100)
                 (Some ([long_call] ++ mkLeg (Some "future"%string) (Some 90) (Some 3) (Some 5) :: []))
                 None) = Payload res /\
    forall pt, In pt (pnl_curve res) ->
      pt_pnl pt ==
      total_pnl (initial_cost ([long_call] ++ [])) ([long_call] ++ []) (pt_price pt)
      - get (Some 5) 0 * get (Some 3) 0 * 100.
Proof.
  destruct (unknown_leg_contributes_entry_cost "custom" 100 None [long_call] []
              (mkLeg (Some "future"%string) (Some 90) (Some 3) (Some 5)))
    as (_ & res & H & _ & Hpt); try discriminate.
  exists res. split; [exact H | exact Hpt].
Defined.

End PayoffTheorems.

(** ** Exposure aggregator *)

Section GroupFacts.

Lemma Qeq_bool_trans_l (a b c : Q) : a == b -> Qeq_bool a c = Qeq_bool b c.
Proof.
  intros H. destruct (Qeq_bool b c) eqn:E.
  - apply Qeq_bool_iff in E. apply Qeq_bool_iff. now rewrite H.
  - apply not_true_iff_false. apply not_true_iff_false in E.
    intros H'. apply E. apply Qeq_bool_iff in H'. apply Qeq_bool_iff. now rewrite <- H.
Qed.

Lemma group_add_total (k v : Q) (g : list (Q * Q)) :
  Qsum (map snd (group_add k v g)) == v + Qsum (map snd g).
Proof.
  induction g as [|[k' v'] g IH]; simpl.
  - reflexivity.
  - destruct (k ?= k'); simpl; try rewrite IH; ring.
Qed.

Lemma group_add_keyed (k v x : Q) (g : list (Q * Q)) :
  Qsum (map snd (keyed x (group_add k v g))) ==
  (if Qeq_bool k x then v else 0) + Qsum (map snd (keyed x g)).
Proof.
  induction g as [|[k' v'] g IH].
  - simpl. destruct (Qeq_bool k x); reflexivity.
  - cbn [group_add]. destruct (k ?= k') eqn:E.
    + apply Qeq_alt in E. unfold keyed. cbn [filter fst].
      rewrite (Qeq_bool_trans_l k k' x E).
      destruct (Qeq_bool k' x); simpl; ring.
    + unfold keyed. cbn [filter fst].
      destruct (Qeq_bool k x), (Qeq_bool k' x); simpl; ring.
    + unfold keyed in *. cbn [filter fst].
      destruct (Qeq_bool k' x); cbn [map snd]; rewrite ?Qsum_cons, IH; ring.
Qed.

Lemma group_add_keys (P : Q -> Prop) (k v : Q) (g : list (Q * Q)) :
  P k -> Forall P (map fst g) -> Forall P (map fst (group_add k v g)).
Proof.
  intros Hk Hg. induction g as [|[k' v'] g IH]; simpl.
  - now constructor.
  - inversion Hg; subst. destruct (k ?= k'); simpl; constructor; auto.
Qed.

Lemma group_add_sorted (k v : Q) (g : list (Q * Q)) :
  StronglySorted Qlt (map fst g) -> StronglySorted Qlt (map fst (group_add k v g)).
Proof.
  induction g as [|[k' v'] g IH]; intros Hs; simpl.
  - constructor; constructor.
  - inversion Hs as [|? ? Hs' Hall]; subst. destruct (k ?= k') eqn:E; simpl.
    + now constructor.
    + apply Qlt_alt in E. constructor; [exact Hs|].
      constructor; [exact E|].
      eapply Forall_impl; [|exact Hall]. intros a Ha. now apply Qlt_trans with k'.
    + apply Qgt_alt in E. constructor; [now apply IH|].
      now apply group_add_keys.
Qed.

Lemma group_add_has_key (k v : Q) (g : list (Q * Q)) :
  exists k', In k' (map fst (group_add k v g)) /\ k' == k.
Proof.
  induction g as [|[k' v'] g IH]; simpl.
  - exists k. split; [now left | reflexivity].
  - destruct (k ?= k') eqn:E; simpl.
    + apply Qeq_alt in E. exists k'. split; [now left | now symmetry].
    + exists k. split; [now left | reflexivity].
    + destruct IH as (k'' & Hin & Heq). exists k''. split; [now right | exact Heq].
Qed.

Lemma group_add_keeps_key (k v x : Q) (g : list (Q * Q)) :
  In x (map fst g) -> In x (map fst (group_add k v g)).
Proof.
  induction g as [|[k' v'] g IH]; simpl; [tauto|].
  intros [<-|Hin]; destruct (k ?= k'); simpl; auto.
Qed.

Lemma group_add_key_origin (k v x : Q) (g : list (Q * Q)) :
  In x (map fst (group_add k v g)) -> x = k \/ In x (map fst g).
Proof.
  induction g as [|[k' v'] g IH]; simpl.
  - intros [<-|[]]. now left.
  - destruct (k ?= k'); simpl.
    + tauto.
    + intros [<-|[<-|H]]; auto.
    + intros [<-|H]; auto. destruct (IH H); auto.
Qed.

Lemma groupby_sum_invariant (rows acc : list (Q * Q)) :
  let out := fold_left (fun groups row => group_add (fst row) (snd row) groups) rows acc in
  (StronglySorted Qlt (map fst acc) -> StronglySorted Qlt (map fst out)) /\
  Qsum (map snd out) == Qsum (map snd rows) + Qsum (map snd acc) /\
  (forall x, Qsum (map snd (keyed x out)) ==
             Qsum (map snd (keyed x rows)) + Qsum (map snd (keyed x acc))) /\
  (forall x, In x (map fst acc) -> In x (map fst out)) /\
  (forall row, In row rows -> exists k, In k (map fst out) /\ k == fst row) /\
  (forall x, In x (map fst out) -> In x (map fst rows) \/ In x (map fst acc)).
Proof.
  revert acc; induction rows as [|[k v] rows IH]; intros acc; cbn [fold_left fst snd].
  - cbn. repeat split; auto; intros; try ring. contradiction.
  - specialize (IH (group_add k v acc)). cbv zeta in IH.
    destruct IH as (Hs & Ht & Hk & Hin & Hrow & Horig).
    cbv zeta. repeat split.
    + intros H. apply Hs. now apply group_add_sorted.
    + rewrite Ht, group_add_total. cbn [map snd]. rewrite Qsum_cons. ring.
    + intros x. rewrite Hk, group_add_keyed. unfold keyed. cbn [filter fst].
      destruct (Qeq_bool k x); cbn [map snd]; rewrite ?Qsum_cons; ring.
    + intros x Hx. apply Hin. now apply group_add_keeps_key.
    + intros row [<-|Hr]; [|now apply Hrow].
      destruct (group_add_has_key k v acc) as (k' & Hk' & Heq).
      exists k'. split; [now apply Hin | exact Heq].
    + intros x Hx. destruct (Horig x Hx) as [H|H]; [left; now right|].
      destruct (group_add_key_origin k v x acc H) as [->|H']; [left; now left | now right].
Qed.

Lemma keyed_sorted_entry (g : list (Q * Q)) (i : nat) (k v : Q) :
  StronglySorted Qlt (map fst g) ->
  nth_error g i = Some (k, v) ->
  Qsum (map snd (keyed k g)) == v.
Proof.
  revert i; induction g as [|[k' v'] g IH]; intros i Hs Hi.
  - now destruct i.
  - cbn [map fst] in Hs. inversion Hs as [|? ? Hs' Hall]; subst.
    unfold keyed. cbn [filter fst]. destruct i as [|i]; cbn [nth_error] in Hi.
    + injection Hi as -> ->.
      rewrite (proj2 (Qeq_bool_iff k k) (Qeq_refl k)). cbn [map snd]. rewrite Qsum_cons.
      assert (Hnone : filter (fun row => Qeq_bool (fst row) k) g = []).
      { clear -Hall. induction g as [|[a b] g IH]; [reflexivity|].
        cbn [map fst] in Hall. inversion Hall as [|? ? Hlt Hall']; subst.
        cbn [filter fst]. destruct (Qeq_bool a k) eqn:E.
        - apply Qeq_bool_iff in E. rewrite E in Hlt. now apply Qlt_irrefl in Hlt.
        - now apply IH. }
      rewrite Hnone. simpl. ring.
    + assert (Hlt : k' < k).
      { rewrite Forall_forall in Hall. apply Hall.
        apply nth_error_In in Hi. now apply (in_map fst) in Hi. }
      destruct (Qeq_bool k' k) eqn:E.
      * apply Qeq_bool_iff in E. rewrite E in Hlt. now apply Qlt_irrefl in Hlt.
      * now apply (IH i).
Qed.

Lemma series_sum_Qsum (values : list Q) : series_sum values == Qsum values.
Proof.
  unfold series_sum.
  assert (H : forall a, fold_left Qplus values a == a + Qsum values).
  { induction values as [|x values IH]; intros a; cbn [fold_left].
    - simpl. ring.
    - rewrite IH, Qsum_cons. ring. }
  rewrite H. ring.
Qed.

End GroupFacts.

Section ExposureFacts.
Import Exposure.

Lemma collect_filter {Row : Type} (row : RawOption -> Row) (chain : list RawOption) :
  collect row chain = map row (filter has_greeks chain).
Proof.
  unfold collect.
  assert (H : forall acc,
             fold_left
               (fun options_list option =>
                  if has_greeks option then options_list ++ [row option] else options_list)
               chain acc = acc ++ map row (filter has_greeks chain)).
  { induction chain as [|o chain IH]; intros acc; cbn [fold_left filter].
    - now rewrite app_nil_r.
    - rewrite IH. destruct (has_greeks o); [|reflexivity].
      cbn [map]. now rewrite <- app_assoc. }
  apply (H []).
Qed.

Lemma keyed_map {A : Type} (key value : A -> Q) (k : Q) (l : list A) :
  keyed k (map (fun a => (key a, value a)) l) =
  map (fun a => (key a, value a)) (filter (fun a => Qeq_bool (key a) k) l).
Proof.
  unfold keyed. induction l as [|a l IH]; [reflexivity|].
  cbn [map filter fst]. destruct (Qeq_bool (key a) k); cbn [map]; now rewrite IH.
Qed.

Lemma nth_error_split (g : list (Q * Q)) (i : nat) (k v : Q) :
  nth_error (map fst g) i = Some k -> nth_error (map snd g) i = Some v ->
  nth_error g i = Some (k, v).
Proof.
  rewrite !nth_error_map. destruct (nth_error g i) as [[a b]|]; simpl; congruence.
Qed.

(** What the aggregation of a non-empty list of surviving contracts returns,
    for any per-contract weight. *)
Lemma aggregate_spec (weight : RawOption -> Q) (contracts : list RawOption) :
  let groups := groupby_sum (map (fun c => (strike c, weight c)) contracts) in
  StronglySorted Qlt (map fst groups) /\
  List.length (map snd groups) = List.length (map fst groups) /\
  (forall i k v,
     nth_error (map fst groups) i = Some k -> nth_error (map snd groups) i = Some v ->
     v == Qsum (map weight (at_strike k contracts))) /\
  (forall c, In c contracts -> exists k, In k (map fst groups) /\ k == strike c) /\
  (forall k, In k (map fst groups) -> exists c, In c contracts /\ strike c = k) /\
  series_sum (map snd groups) == Qsum (map snd groups) /\
  series_sum (map snd groups) == Qsum (map weight contracts).
Proof.
  intros groups.
  destruct (groupby_sum_invariant (map (fun c => (strike c, weight c)) contracts) [])
    as (Hs & Ht & Hk & _ & Hrow & Horig).
  fold (groupby_sum (map (fun c => (strike c, weight c)) contracts)) in Hs, Ht, Hk, Hrow, Horig.
  fold groups in Hs, Ht, Hk, Hrow, Horig.
  assert (Hsorted : StronglySorted Qlt (map fst groups)) by (apply Hs; constructor).
  split; [exact Hsorted|].
  split; [now rewrite !length_map|].
  split.
  { intros i k v Hki Hvi.
    rewrite <- (keyed_sorted_entry groups i k v Hsorted (nth_error_split _ _ _ _ Hki Hvi)).
    rewrite Hk, keyed_map, map_map.
    change (fun x : RawOption => snd (strike x, weight x)) with weight.
    change (Qsum (map snd (keyed k []))) with 0.
    unfold at_strike. ring. }
  split.
  { intros c Hc. apply (Hrow (strike c, weight c)).
    apply (in_map (fun c => (strike c, weight c))). exact Hc. }
  split.
  { intros k Hin. destruct (Horig k Hin) as [H|[]].
    rewrite map_map in H. cbn [fst] in H. apply in_map_iff in H.
    destruct H as (c & Hc & Hinc). now exists c. }
  split; [apply series_sum_Qsum|].
  rewrite series_sum_Qsum, Ht, map_map.
  change (fun x : RawOption => snd (strike x, weight x)) with weight.
  change (Qsum (map snd [])) with 0. ring.
Qed.

Lemma surviving_rows {Row : Type} (row : RawOption -> Row) (data : OptionsData)
    (chain : list RawOption) :
  options data = Chain chain ->
  collect row chain = map row (surviving data).
Proof. intros H. unfold surviving. rewrite H. apply collect_filter. Qed.

Lemma truthy_list_map {A B : Type} (f : A -> B) (l : list A) :
  truthy_list (map f l) = truthy_list l.
Proof. now destruct l. Qed.

Lemma calculate_gex_cases (data : OptionsData) :
  (surviving data = [] /\
   ((options data = Absent \/ options data = Null) /\
    calculate_gex data = ErrorPayload "No options data found" \/
    (exists chain, options data = Chain chain) /\
    calculate_gex data = ErrorPayload "No valid options with Greeks found")) \/
  (surviving data <> [] /\
   let groups :=
     groupby_sum (map (fun c => (strike c, contract_gex c)) (surviving data)) in
   calculate_gex data =
   Payload (mkGexResult (map fst groups) (map snd groups) (series_sum (map snd groups)))).
Proof.
  unfold calculate_gex. destruct (options data) as [| |chain] eqn:E.
  - left. split; [unfold surviving; now rewrite E|]. left. split; [now left | reflexivity].
  - left. split; [unfold surviving; now rewrite E|]. left. split; [now right | reflexivity].
  - rewrite (surviving_rows gex_row data chain E), truthy_list_map.
    destruct (surviving data) as [|c cs] eqn:Es.
    + left. split; [reflexivity|]. right. split; [now exists chain | reflexivity].
    + right. split; [discriminate|]. cbn [truthy_list negb]. rewrite map_map. reflexivity.
Qed.

Lemma calculate_dex_cases (data : OptionsData) :
  (surviving data = [] /\
   ((options data = Absent \/ options data = Null) /\
    calculate_dex data = ErrorPayload "No options data found" \/
    (exists chain, options data = Chain chain) /\
    calculate_dex data = ErrorPayload "No valid options with Greeks found")) \/
  (surviving data <> [] /\
   let groups :=
     groupby_sum (map (fun c => (strike c, contract_dex c)) (surviving data)) in
   calculate_dex data =
   Payload (mkDexResult (map fst groups) (map snd groups) (series_sum (map snd groups)))).
Proof.
  unfold calculate_dex. destruct (options data) as [| |chain] eqn:E.
  - left. split; [unfold surviving; now rewrite E|]. left. split; [now left | reflexivity].
  - left. split; [unfold surviving; now rewrite E|]. left. split; [now right | reflexivity].
  - rewrite (surviving_rows dex_row data chain E), truthy_list_map.
    destruct (surviving data) as [|c cs] eqn:Es.
    + left. split; [reflexivity|]. right. split; [now exists chain | reflexivity].
    + right. split; [discriminate|]. cbn [truthy_list negb]. rewrite map_map. reflexivity.
Qed.

End ExposureFacts.

Section ExposureTheorems.
Import Exposure.





(** C9.  The normalizer of both operations keeps exactly the entries whose
    greeks object is present and non-empty, in order; a kept entry without
    the gamma (GEX) or delta (DEX) member, or without open_interest, gets 0
    for it; and the operation answers with an error payload exactly when no
    entry survives: "No options data found" when the payload has no chain,
    "No valid options with Greeks found" when the chain has no surviving
    entry.  It never fails with an HTTP 500. *)
Theorem normalizer_filter_and_errors (data : OptionsData) :
  (forall chain, collect gex_row chain = map gex_row (filter has_greeks chain)) /\
  (forall chain, collect dex_row chain = map dex_row (filter has_greeks chain)) /\
  (forall o, has_greeks o = true <-> exists g, greeks o = Some g /\ g <> []) /\
  (forall o g, greeks o = Some g -> lookup "gamma" g = None -> gex_gamma (gex_row o) = 0) /\
  (forall o g, greeks o = Some g -> lookup "delta" g = None -> dex_delta (dex_row o) = 0) /\
  (forall o, open_interest o = None ->
             gex_open_interest (gex_row o) = 0 /\ dex_open_interest (dex_row o) = 0) /\
  (surviving data = [] <-> exists msg, calculate_gex data = ErrorPayload msg) /\
  (surviving data = [] <-> exists msg, calculate_dex data = ErrorPayload msg) /\
  (surviving data <> [] <-> exists res, calculate_gex data = Payload res) /\
  (surviving data <> [] <-> exists res, calculate_dex data = Payload res) /\
  (options data = Absent \/ options data = Null ->
   calculate_gex data = ErrorPayload "No options data found" /\
   calculate_dex data = ErrorPayload "No options data found") /\
  (forall chain, options data = Chain chain -> filter has_greeks chain = [] ->
   calculate_gex data = ErrorPayload "No valid options with Greeks found" /\
   calculate_dex data = ErrorPayload "No valid options with Greeks found") /\
  (forall e, calculate_gex data <> Http500 e /\ calculate_dex data <> Http500 e).
Proof.
  split; [intros chain; apply collect_filter|].
  split; [intros chain; apply collect_filter|].
  split.
  { intros o. unfold has_greeks. destruct (greeks o) as [[|m g]|]; split;
      try discriminate; try (intros (g' & [= <-] & H); congruence);
      try (intros (g' & H & _); discriminate).
    intros _. eexists; split; [reflexivity | discriminate]. }
  split; [intros o g Hg Hl; unfold gex_row, greek; cbn; now rewrite Hg; cbn; rewrite Hl|].
  split; [intros o g Hg Hl; unfold dex_row, greek; cbn; now rewrite Hg; cbn; rewrite Hl|].
  split; [intros o Ho; cbn; now rewrite Ho|].
  pose proof (calculate_gex_cases data) as Hg.
  pose proof (calculate_dex_cases data) as Hd.
  cbv zeta in Hg, Hd.
  assert (Hdec : surviving data = [] \/ surviving data <> [])
    by (destruct (surviving data); [now left | now right]).
  split.
  { split.
    - intros Hs. destruct Hg as [(_ & [[_ H]|[_ H]])|[Hn _]]; try contradiction;
        eexists; exact H.
    - intros (msg & H). destruct Hg as [[Hs _]|[_ Hp]]; [exact Hs | congruence]. }
  split.
  { split.
    - intros Hs. destruct Hd as [(_ & [[_ H]|[_ H]])|[Hn _]]; try contradiction;
        eexists; exact H.
    - intros (msg & H). destruct Hd as [[Hs _]|[_ Hp]]; [exact Hs | congruence]. }
  split.
  { split.
    - intros Hs. destruct Hg as [[He _]|[_ Hp]]; [contradiction | eexists; exact Hp].
    - intros (res & H) Hs.
      destruct Hg as [(_ & [[_ H']|[_ H']])|[Hn _]]; try congruence. }
  split.
  { split.
    - intros Hs. destruct Hd as [[He _]|[_ Hp]]; [contradiction | eexists; exact Hp].
    - intros (res & H) Hs.
      destruct Hd as [(_ & [[_ H']|[_ H']])|[Hn _]]; try congruence. }
  split.
  { intros Ho. unfold calculate_gex, calculate_dex.
    destruct Ho as [-> | ->]; split; reflexivity. }
  split.
  { intros chain Hc Hf. unfold calculate_gex, calculate_dex. rewrite Hc.
    rewrite !collect_filter, Hf. split; reflexivity. }
  intros e. split.
  - destruct Hg as [(_ & [[_ H]|[_ H]])|[_ H]]; rewrite H; discriminate.
  - destruct Hd as [(_ & [[_ H]|[_ H]])|[_ H]]; rewrite H; discriminate.
Qed.

Lemma normalizer_filter_and_errors_witness :
  map gex_strike (collect gex_row [call_105; no_greeks_95; put_105; call_100]) = [105; 105; 100] /\
  gex_gamma (gex_row call_100) = 0 /\
  calculate_gex (mkOptionsData (Chain [no_greeks_95])) =
    ErrorPayload "No valid options with Greeks found".
Proof.
  destruct (normalizer_filter_and_errors (mkOptionsData (Chain [no_greeks_95])))
    as (Hc & _ & _ & Hgamma & _ & _ & _ & _ & _ & _ & _ & Herr & _).
  split; [rewrite Hc; reflexivity|].
  split; [apply (Hgamma call_100 [("delta"%string, 1 # 2)]); reflexivity|].
  apply (Herr [no_greeks_95]); reflexivity.
Defined.

End ExposureTheorems.

(** ** Backtest runner *)

Section BacktestFacts.
Import Backtest.

Lemma iloc_nth (df : list Day) (i : nat) :
  (i < List.length df)%nat -> iloc df i = Return (nth i df (mkDay "" 0)).
Proof.
  intros Hi. unfold iloc.
  now rewrite (nth_error_nth' df (mkDay "" 0) Hi).
Qed.

Lemma collect_premiums_cons (df : list Day) (ps : Z) (i : nat) (indices : list nat)
    (state state' : Q * list Trade) :
  premium_step df ps state i = Return state' ->
  collect_premiums df ps (i :: indices) state = collect_premiums df ps indices state'.
Proof.
  intros H. unfold collect_premiums. cbn [fold_left bind]. now rewrite H.
Qed.

Lemma collect_premiums_spec (df : list Day) (ps : Z) (indices : list nat) :
  Forall (fun i => (i < List.length df)%nat) indices ->
  forall (cash : Q) (hist : list Trade),
  exists cash' new,
    collect_premiums df ps indices (cash, hist) = Return (cash', hist ++ new) /\
    map fields_of new =
      map (entry_of df ps) (filter (fun i => Nat.eqb (i mod 30) 0) indices) /\
    cash' == cash + Qsum (map premium new) /\
    (forall j t, nth_error new j = Some t ->
       trade_capital t ==
       cash + Qsum (map premium (firstn (S j) new)) + trade_price t * inject_Z ps).
Proof.
  induction 1 as [|i indices Hi Hall IH]; intros cash hist.
  - exists cash, []. rewrite app_nil_r. repeat split; try reflexivity.
    + simpl. ring.
    + intros [|j] t; discriminate.
  - cbn [filter]. destruct (Nat.eqb (i mod 30) 0) eqn:E.
    + set (day := nth i df (mkDay "" 0)).
      set (prem := close day * (2 # 100) * inject_Z ps).
      set (t0 := mkTrade (date day) "Sell Call" (close day) prem
                         (cash + prem + close day * inject_Z ps)).
      assert (Hstep : premium_step df ps (cash, hist) i = Return (cash + prem, hist ++ [t0])).
      { unfold premium_step. rewrite E, (iloc_nth df i Hi). reflexivity. }
      rewrite (collect_premiums_cons _ _ _ _ _ _ Hstep).
      destruct (IH (cash + prem) (hist ++ [t0])) as (cash' & new & Hrun & Hf & Hc & Hcap).
      exists cash', (t0 :: new). rewrite Hrun, <- app_assoc.
      split; [reflexivity|]. split; [cbn [map]; now rewrite Hf|].
      split; [rewrite Hc; cbn [map premium t0]; rewrite Qsum_cons; ring|].
      intros [|j] t Ht; cbn [nth_error] in Ht.
      * injection Ht as <-. cbn. ring.
      * rewrite (Hcap j t Ht). cbn [firstn map premium t0]. rewrite !Qsum_cons.
        cbn [firstn map]. ring.
    + assert (Hstep : premium_step df ps (cash, hist) i = Return (cash, hist)).
      { unfold premium_step. now rewrite E. }
      rewrite (collect_premiums_cons _ _ _ _ _ _ Hstep). apply IH.
Qed.

Lemma py_int_floor (x : Q) : 0 <= x -> py_int x = Qfloor x.
Proof.
  destruct x as [n d]. unfold Qle, py_int, Qfloor. simpl. intros H.
  apply Z.quot_div_nonneg; lia.
Qed.

Lemma floor_affordable (cap c : Q) :
  0 < c ->
  inject_Z (Qfloor (cap / c)) * c <= cap /\ cap < (inject_Z (Qfloor (cap / c)) + 1) * c.
Proof.
  intros Hc.
  assert (Hne : ~ c == 0) by (intros E; rewrite E in Hc; discriminate).
  pose proof (Qfloor_le (cap / c)) as Hlo.
  pose proof (Qlt_floor (cap / c)) as Hhi.
  rewrite inject_Z_plus in Hhi. change (inject_Z 1) with 1 in Hhi.
  split.
  - setoid_replace cap with ((cap / c) * c) at 2 by (field; exact Hne).
    apply Qmult_le_compat_r; [exact Hlo | now apply Qlt_le_weak].
  - setoid_replace cap with ((cap / c) * c) at 1 by (field; exact Hne).
    apply Qmult_lt_compat_r; assumption.
Qed.

(** The Covered Call branch on [three_days] with a capital of 10000: 100
    shares, no premium, 9900 at the end. *)
Lemma covered_call_three_days :
  exists r, covered_call three_days 10000 = Return r /\
            position_size r = 100%Z /\ trade_history r = [] /\ final_capital r == 9900.
Proof.
  eexists. split; [reflexivity|]. repeat split; reflexivity.
Qed.

End BacktestFacts.

Section BacktestTheorems.
Import Backtest.




End BacktestTheorems.

Section MetricsTheorems.
Import Metrics.
Local Open Scope R_scope.

Lemma sharpe_ratio_gap (initial final : R) (closes : list R) :
  std (pct_change closes) * sqrt 252 <> 0 ->
  sharpe_ratio initial final closes - sharpe_ratio_spec initial final closes =
  (198 / 100) / (std (pct_change closes) * sqrt 252).
Proof.
  intros Hd. unfold sharpe_ratio, sharpe_ratio_spec, risk_free_rate.
  field. split; intros E; apply Hd; rewrite E; ring.
Qed.

Lemma std_example : std (pct_change [100; 110; 99]) = sqrt (2 / 100).
Proof.
  unfold std, mean. cbn [pct_change List.length map Rsum fold_right INR].
  f_equal. field.
Qed.

(** C5 at a failing input.  For the closes 100, 110, 99 with an initial
    capital of 10000 and a final capital of 9900 (100 shares bought at 100
    and valued at 99), the denominator [std * sqrt 252] is positive and the
    code's Sharpe ratio is the annualized percent return minus 0.02 over it,
    which exceeds the specified ratio (minus 2.0) by 1.98 over it. *)
Theorem sharpe_ratio_subtracts_two_hundredths :
  let closes := [100; 110; 99] in
  let d := std (pct_change closes) * sqrt 252 in
  0 < d /\
  sharpe_ratio 10000 9900 closes =
    (annualized_return (total_return 10000 9900) 3 - 2 / 100) / d /\
  sharpe_ratio_spec 10000 9900 closes =
    (annualized_return (total_return 10000 9900) 3 - 2) / d /\
  sharpe_ratio 10000 9900 closes - sharpe_ratio_spec 10000 9900 closes = (198 / 100) / d /\
  sharpe_ratio 10000 9900 closes <> sharpe_ratio_spec 10000 9900 closes.
Proof.
  intros closes d.
  assert (Hd : 0 < d).
  { unfold d, closes. rewrite std_example.
    apply Rmult_lt_0_compat; apply sqrt_lt_R0; lra. }
  split; [exact Hd|]. split; [reflexivity|]. split; [reflexivity|].
  assert (Hgap : sharpe_ratio 10000 9900 closes - sharpe_ratio_spec 10000 9900 closes
                 = (198 / 100) / d).
  { apply sharpe_ratio_gap. fold d. lra. }
  split; [exact Hgap|].
  intros Heq. rewrite Heq, Rminus_diag in Hgap.
  assert (0 < (198 / 100) / d) by (apply Rdiv_lt_0_compat; lra).
  lra.
Qed.

End MetricsTheorems.

(** * Further properties of the payoff curve engine *)

Section PayoffBounds.
Import Payoff.

Lemma option_value_nonneg (ot : string) (k p : Q) :
  0 <= option_value_at_expiry ot k p.
Proof.
  unfold option_value_at_expiry.
  destruct (String.eqb ot "call"); [|destruct (String.eqb ot "put")].
  - rewrite py_max2_Qmax. apply Q.le_max_l.
  - rewrite py_max2_Qmax. apply Q.le_max_l.
  - apply Qle_refl.
Qed.

Lemma Qsum_nonneg (l : list Q) : Forall (fun x => 0 <= x) l -> 0 <= Qsum l.
Proof.
  induction 1 as [|x l Hx _ IH]; [apply Qle_refl|].
  rewrite Qsum_cons. Lqa.lra.
Qed.

Lemma Qsum_nonpos (l : list Q) : Forall (fun x => x <= 0) l -> Qsum l <= 0.
Proof.
  induction 1 as [|x l Hx _ IH]; [apply Qle_refl|].
  rewrite Qsum_cons. Lqa.lra.
Qed.

Lemma leg_values_nonneg (ls : list Leg) (p : Q) :
  Forall (fun leg => 0 <= get (quantity leg) 0) ls ->
  Forall (fun x => 0 <= x) (map (leg_value_at p) ls).
Proof.
  intros H. apply Forall_map. eapply Forall_impl; [|exact H].
  intros leg Hq. unfold leg_value_at.
  pose proof (option_value_nonneg (get (option_type leg) ""%string)
                                  (get (strike leg) 0) p) as Hv.
  apply Qmult_le_0_compat; [now apply Qmult_le_0_compat | discriminate].
Qed.

Lemma leg_values_nonpos (ls : list Leg) (p : Q) :
  Forall (fun leg => get (quantity leg) 0 <= 0) ls ->
  Forall (fun x => x <= 0) (map (leg_value_at p) ls).
Proof.
  intros H. apply Forall_map. eapply Forall_impl; [|exact H].
  intros leg Hq. cbv beta in Hq. unfold leg_value_at.
  pose proof (option_value_nonneg (get (option_type leg) ""%string)
                                  (get (strike leg) 0) p) as Hv.
  Lqa.nra.
Qed.

Lemma sampled_curve_point (P r : Q) (ls : list Leg) (pt : Point) :
  In pt (sampled_curve P r ls) ->
  pt_pnl pt = total_pnl (initial_cost ls) ls (pt_price pt).
Proof.
  unfold sampled_curve, build_curve. intros H. apply in_map_iff in H.
  destruct H as (p & <- & _). reflexivity.
Qed.

(** X1.  For an otherwise valid request whose legs all have a non-negative
    quantity (a long-only position) no sample of the curve loses more than
    the initial cost, so max_loss is at least minus the initial cost; when
    all quantities are non-positive (short only) no sample gains more than
    the credit received, so max_profit is at most minus the initial cost. *)
Theorem one_sided_position_is_bounded
    (s : string) (P : Q) (ls : list Leg) (ro : option Q) :
  s <> ""%string -> ~ P == 0 -> ls <> [] ->
  exists res,
    calculate_strategy_pnl (mkRequest (Some s) (Some P) (Some ls) ro) = Payload res /\
    (Forall (fun leg => 0 <= get (quantity leg) 0) ls ->
     (forall pt, In pt (pnl_curve res) -> - res_initial_cost res <= pt_pnl pt) /\
     - res_initial_cost res <= max_loss res) /\
    (Forall (fun leg => get (quantity leg) 0 <= 0) ls ->
     (forall pt, In pt (pnl_curve res) -> pt_pnl pt <= - res_initial_cost res) /\
     max_profit res <= - res_initial_cost res).
Proof.
  intros Hs HP Hls.
  rewrite (calculate_valid s P ls ro Hs HP Hls).
  destruct (compute_returns s P (get ro 20) ls) as (mp & ml & -> & Hmax & Hmin).
  eexists; split; [reflexivity|].
  cbn [pnl_curve res_initial_cost max_profit max_loss].
  apply py_max_spec in Hmax. apply py_min_spec in Hmin.
  destruct Hmax as [_ Hmaxin], Hmin as [_ Hminin].
  apply in_map_iff in Hmaxin, Hminin.
  destruct Hmaxin as (ptmax & <- & Hinmax), Hminin as (ptmin & <- & Hinmin).
  split.
  - intros Hlong.
    assert (Hall : forall pt, In pt (sampled_curve P (get ro 20) ls) ->
                              - initial_cost ls <= pt_pnl pt).
    { intros pt Hpt. rewrite (sampled_curve_point _ _ _ _ Hpt), total_pnl_sum.
      pose proof (Qsum_nonneg _ (leg_values_nonneg ls (pt_price pt) Hlong)).
      Lqa.lra. }
    split; [exact Hall | now apply Hall].
  - intros Hshort.
    assert (Hall : forall pt, In pt (sampled_curve P (get ro 20) ls) ->
                              pt_pnl pt <= - initial_cost ls).
    { intros pt Hpt. rewrite (sampled_curve_point _ _ _ _ Hpt), total_pnl_sum.
      pose proof (Qsum_nonpos _ (leg_values_nonpos ls (pt_price pt) Hshort)).
      Lqa.lra. }
    split; [exact Hall | now apply Hall].
Qed.

Lemma one_sided_position_is_bounded_witness :
  exists res,
    calculate_strategy_pnl (long_call_request (Some "long_call"%string) 100) = Payload res /\
    - res_initial_cost res <= max_loss res.
Proof.
  assert (Hs : "long_call"%string <> ""%string) by discriminate.
  assert (HP : ~ 100 == 0) by discriminate.
  assert (Hl : [long_call] <> []) by discriminate.
  destruct (one_sided_position_is_bounded "long_call" 100 [long_call] None Hs HP Hl)
    as (res & H & Hlong & _).
  exists res. split; [exact H|]. apply Hlong.
  constructor; [discriminate | constructor].
Defined.

Lemma Qsum_permutation (l l' : list Q) : Permutation l l' -> Qsum l == Qsum l'.
Proof.
  induction 1; rewrite ?Qsum_cons.
  - reflexivity.
  - rewrite IHPermutation. reflexivity.
  - ring.
  - now rewrite IHPermutation1.
Qed.

(** X2.  The order of the legs does not matter: two otherwise equal valid
    requests whose leg lists are permutations of each other get curves with
    the same prices and equal P&L at every sample, and the same initial
    cost. *)
Theorem leg_order_is_irrelevant
    (s : string) (P : Q) (ls ls' : list Leg) (ro : option Q) :
  s <> ""%string -> ~ P == 0 -> ls <> [] -> Permutation ls ls' ->
  exists res res',
    calculate_strategy_pnl (mkRequest (Some s) (Some P) (Some ls) ro) = Payload res /\
    calculate_strategy_pnl (mkRequest (Some s) (Some P) (Some ls') ro) = Payload res' /\
    res_initial_cost res == res_initial_cost res' /\
    Forall2 (fun a b => pt_price a = pt_price b /\ pt_pnl a == pt_pnl b)
            (pnl_curve res) (pnl_curve res').
Proof.
  intros Hs HP Hls Hperm.
  assert (Hls' : ls' <> []).
  { intros ->. apply Permutation_sym, Permutation_nil in Hperm. contradiction. }
  rewrite (calculate_valid s P ls ro Hs HP Hls), (calculate_valid s P ls' ro Hs HP Hls').
  destruct (compute_returns s P (get ro 20) ls) as (mp & ml & -> & _ & _).
  destruct (compute_returns s P (get ro 20) ls') as (mp' & ml' & -> & _ & _).
  eexists; eexists. split; [reflexivity|]. split; [reflexivity|].
  cbn [pnl_curve res_initial_cost].
  assert (Hcost : initial_cost ls == initial_cost ls').
  { rewrite !initial_cost_sum. apply Qsum_permutation. now apply Permutation_map. }
  split; [exact Hcost|].
  unfold sampled_curve, build_curve.
  induction (sample_prices P (get ro 20)) as [|p ps IH]; cbn [map]; constructor;
    [|exact IH].
  cbn [pt_price pt_pnl]. split; [reflexivity|].
  rewrite !total_pnl_sum, Hcost.
  rewrite (Qsum_permutation _ _ (Permutation_map (leg_value_at p) Hperm)). reflexivity.
Qed.

Lemma leg_order_is_irrelevant_witness :
  exists res res',
    calculate_strategy_pnl
      (mkRequest (Some "custom"%string) (Some 100) (Some [long_call; short_put]) None)
      = Payload res /\
    calculate_strategy_pnl
      (mkRequest (Some "custom"%string) (Some 100) (Some [short_put; long_call]) None)
      = Payload res' /\
    res_initial_cost res == res_initial_cost res'.
Proof.
  assert (Hs : "custom"%string <> ""%string) by discriminate.
  assert (HP : ~ 100 == 0) by discriminate.
  assert (Hl : [long_call; short_put] <> []) by discriminate.
  destruct (leg_order_is_irrelevant "custom" 100 [long_call; short_put]
              [short_put; long_call] None Hs HP Hl (perm_swap _ _ _))
    as (res & res' & H & H' & Hc & _).
  exists res, res'. split; [exact H|]. split; [exact H' | exact Hc].
Defined.

End PayoffBounds.

(** Division by a numeral, written as multiplication by its inverse, for the
    linear arithmetic tactics. *)
Ltac qconst :=
  unfold Qdiv in *;
  repeat match goal with
  | |- context [Qinv (Qmake ?n ?d)] =>
      let v := eval compute in (Qinv (Qmake n d)) in
      change (Qinv (Qmake n d)) with v
  | H : context [Qinv (Qmake ?n ?d)] |- _ =>
      let v := eval compute in (Qinv (Qmake n d)) in
      change (Qinv (Qmake n d)) with v in H
  end.

Section BreakevenFacts.
Import Payoff.

Lemma segment_breakeven_root (a b : Point) :
  sign_change (pt_pnl a) (pt_pnl b) -> ~ pt_pnl b == pt_pnl a ->
  segment_breakeven (a, b) = [interpolated_root a b].
Proof.
  intros Hs Hne. unfold segment_breakeven.
  apply crosses_zero_iff in Hs. rewrite Hs.
  destruct (Qeq_bool (pt_pnl b) (pt_pnl a)) eqn:E;
    [apply Qeq_bool_iff in E; contradiction | reflexivity].
Qed.

Lemma segment_breakeven_cases (a b : Point) :
  segment_breakeven (a, b) = [] \/
  (segment_breakeven (a, b) = [interpolated_root a b] /\
   sign_change (pt_pnl a) (pt_pnl b) /\ ~ pt_pnl b == pt_pnl a).
Proof.
  unfold segment_breakeven.
  destruct (crosses_zero (pt_pnl a) (pt_pnl b)) eqn:Ec; [|now left].
  destruct (Qeq_bool (pt_pnl b) (pt_pnl a)) eqn:Ee; [now left|].
  right. split; [reflexivity|]. split; [now apply crosses_zero_iff|].
  intros H. apply Qeq_bool_iff in H. congruence.
Qed.

(** The interpolation weight [-pnl1 / (pnl2 - pnl1)] lies in [0, 1]. *)
Lemma interpolation_weight (pnl1 pnl2 : Q) :
  sign_change pnl1 pnl2 -> ~ pnl2 == pnl1 ->
  0 <= - pnl1 / (pnl2 - pnl1) <= 1.
Proof.
  intros [[H1 H2]|[H1 H2]] Hne.
  - assert (Hd : 0 < pnl2 - pnl1).
    { destruct (Qlt_le_dec 0 (pnl2 - pnl1)) as [H|H]; [exact H|].
      exfalso. apply Hne. Lqa.lra. }
    split; [apply Qle_shift_div_l | apply Qle_shift_div_r]; try exact Hd; Lqa.lra.
  - assert (Hd : 0 < pnl1 - pnl2).
    { destruct (Qlt_le_dec 0 (pnl1 - pnl2)) as [H|H]; [exact H|].
      exfalso. apply Hne. Lqa.lra. }
    assert (Hnz : ~ pnl2 - pnl1 == 0) by (intros E; Lqa.lra).
    setoid_replace (- pnl1 / (pnl2 - pnl1)) with (pnl1 / (pnl1 - pnl2))
      by (field; split; [intros E; Lqa.lra | exact Hnz]).
    split; [apply Qle_shift_div_l | apply Qle_shift_div_r]; try exact Hd; Lqa.lra.
Qed.

Lemma interpolated_root_between (a b : Point) :
  sign_change (pt_pnl a) (pt_pnl b) -> ~ pt_pnl b == pt_pnl a ->
  (pt_price a <= pt_price b ->
   pt_price a <= interpolated_root a b <= pt_price b) /\
  (pt_price b <= pt_price a ->
   pt_price b <= interpolated_root a b <= pt_price a).
Proof.
  intros Hs Hne.
  pose proof (interpolation_weight _ _ Hs Hne) as [Ht0 Ht1].
  assert (Hnz : ~ pt_pnl b - pt_pnl a == 0) by (intros E; apply Hne; Lqa.lra).
  assert (Hroot : interpolated_root a b ==
                  pt_price a + (pt_price b - pt_price a)
                               * (- pt_pnl a / (pt_pnl b - pt_pnl a))).
  { unfold interpolated_root. field. exact Hnz. }
  rewrite Hroot. revert Ht0 Ht1.
  generalize (- pt_pnl a / (pt_pnl b - pt_pnl a)) (pt_price a) (pt_price b).
  intros t p1 p2 Ht0 Ht1. split; intros Hp.
  - assert (0 <= (p2 - p1) * t) by (apply Qmult_le_0_compat; Lqa.lra).
    assert (0 <= (p2 - p1) * (1 - t)) by (apply Qmult_le_0_compat; Lqa.lra).
    split; Lqa.lra.
  - assert (0 <= (p1 - p2) * t) by (apply Qmult_le_0_compat; Lqa.lra).
    assert (0 <= (p1 - p2) * (1 - t)) by (apply Qmult_le_0_compat; Lqa.lra).
    split; Lqa.lra.
Qed.

Lemma adjacent_pairs_in (curve : list Point) (a b : Point) :
  In (a, b) (adjacent_pairs curve) -> In a curve /\ In b curve.
Proof.
  induction curve as [|x [|y rest] IH]; [contradiction | contradiction |].
  change (adjacent_pairs (x :: y :: rest)) with ((x, y) :: adjacent_pairs (y :: rest)).
  intros [[= <- <-]|H].
  - split; [now left | right; now left].
  - destruct (IH H) as [Ha Hb]. split; now right.
Qed.

Lemma adjacent_pairs_length (curve : list Point) :
  List.length (adjacent_pairs curve) = (List.length curve - 1)%nat.
Proof.
  induction curve as [|x [|y rest] IH]; [reflexivity | reflexivity |].
  change (adjacent_pairs (x :: y :: rest)) with ((x, y) :: adjacent_pairs (y :: rest)).
  cbn [List.length] in *. lia.
Qed.

Lemma breakevens_spec_length (curve : list Point) :
  (List.length (breakevens_spec curve) <= List.length curve - 1)%nat.
Proof.
  rewrite <- adjacent_pairs_length. unfold breakevens_spec.
  induction (adjacent_pairs curve) as [|[a b] segs IH]; [apply Nat.le_refl|].
  cbn [flat_map]. rewrite length_app. cbn [List.length].
  destruct (segment_breakeven_cases a b) as [->|[-> _]]; cbn [List.length]; lia.
Qed.

Lemma breakevens_spec_in (curve : list Point) (x : Q) :
  In x (breakevens_spec curve) ->
  exists a b, In (a, b) (adjacent_pairs curve) /\
              sign_change (pt_pnl a) (pt_pnl b) /\ ~ pt_pnl b == pt_pnl a /\
              x = interpolated_root a b.
Proof.
  unfold breakevens_spec. intros H. apply in_flat_map in H.
  destruct H as ([a b] & Hin & Hx). exists a, b. split; [exact Hin|].
  destruct (segment_breakeven_cases a b) as [E|(E & Hs & Hne)]; rewrite E in Hx.
  - contradiction.
  - destruct Hx as [<-|[]]. now repeat split.
Qed.

Lemma breakevens_spec_split (pre : list Point) (a b : Point) (rest : list Point) :
  breakevens_spec (pre ++ a :: b :: rest) =
  breakevens_spec (pre ++ [a]) ++ segment_breakeven (a, b) ++ breakevens_spec (b :: rest).
Proof.
  unfold breakevens_spec. induction pre as [|x pre IH].
  - cbn [app adjacent_pairs flat_map]. reflexivity.
  - destruct pre as [|y pre].
    + cbn [app] in *.
      change (adjacent_pairs (x :: a :: b :: rest))
        with ((x, a) :: adjacent_pairs (a :: b :: rest)).
      change (adjacent_pairs [x; a]) with [(x, a)].
      cbn [flat_map]. rewrite IH. cbn [adjacent_pairs flat_map app].
      now rewrite app_nil_r.
    + cbn [app] in *.
      change (adjacent_pairs (x :: y :: pre ++ a :: b :: rest))
        with ((x, y) :: adjacent_pairs (y :: pre ++ a :: b :: rest)).
      change (adjacent_pairs (x :: y :: pre ++ [a]))
        with ((x, y) :: adjacent_pairs (y :: pre ++ [a])).
      cbn [flat_map]. rewrite IH. now rewrite <- app_assoc.
Qed.

Lemma sample_prices_in (P r p : Q) :
  In p (sample_prices P r) ->
  exists i, (i < 50)%nat /\
    p = P * (1 - r / 100)
        + inject_Z (Z.of_nat i) * ((P * (1 + r / 100) - P * (1 - r / 100)) / (50 - 1)).
Proof.
  unfold sample_prices, linspace, price_points. intros H.
  apply in_map_iff in H. destruct H as (i & <- & Hi). apply in_seq in Hi.
  exists i. split; [lia | reflexivity].
Qed.

Lemma sample_prices_range (P r p : Q) :
  0 < P -> 0 <= r -> In p (sample_prices P r) ->
  P * (1 - r / 100) <= p <= P * (1 + r / 100).
Proof.
  intros HP Hr Hin. destruct (sample_prices_in P r p Hin) as (i & Hi & ->).
  assert (Hk0 : 0 <= inject_Z (Z.of_nat i)).
  { change 0 with (inject_Z 0). rewrite <- Zle_Qle. lia. }
  assert (Hk1 : inject_Z (Z.of_nat i) <= 49).
  { change 49 with (inject_Z 49). rewrite <- Zle_Qle. lia. }
  assert (Hpr : 0 <= P * r) by (apply Qmult_le_0_compat; Lqa.lra).
  assert (Hstep : (P * (1 + r / 100) - P * (1 - r / 100)) / (50 - 1) == P * r * (1 # 2450))
    by field.
  revert Hstep Hk0 Hk1.
  generalize ((P * (1 + r / 100) - P * (1 - r / 100)) / (50 - 1))
             (inject_Z (Z.of_nat i)).
  intros step k Hstep Hk0 Hk1.
  assert (Hs0 : 0 <= step) by (rewrite Hstep; Lqa.lra).
  assert (0 <= k * step) by (apply Qmult_le_0_compat; assumption).
  assert (0 <= (49 - k) * step) by (apply Qmult_le_0_compat; Lqa.lra).
  qconst. split; Lqa.lra.
Qed.

End BreakevenFacts.

Section BreakevenTheorems.
Import Payoff.



(** X4.  A sample whose P&L is exactly zero, between two samples whose P&L
    is not, is reported twice: once by the segment that ends at it and once
    by the segment that starts at it, both times at its own price. *)
Theorem zero_sample_is_reported_twice (pre post : list Point) (a b c : Point) :
  pt_pnl b == 0 -> ~ pt_pnl a == 0 -> ~ pt_pnl c == 0 ->
  exists x y,
    find_breakevens (pre ++ a :: b :: c :: post) =
      Return (breakevens_spec (pre ++ [a]) ++ x :: y :: breakevens_spec (c :: post)) /\
    x == pt_price b /\ y == pt_price b.
Proof.
  intros Hb Ha Hc.
  assert (Hab : sign_change (pt_pnl a) (pt_pnl b)).
  { unfold sign_change. rewrite Hb.
    destruct (Qlt_le_dec 0 (pt_pnl a)) as [H|H].
    - right. split; [now apply Qlt_le_weak | apply Qle_refl].
    - left. split; [exact H | apply Qle_refl]. }
  assert (Hbc : sign_change (pt_pnl b) (pt_pnl c)).
  { unfold sign_change. rewrite Hb.
    destruct (Qlt_le_dec 0 (pt_pnl c)) as [H|H].
    - left. split; [apply Qle_refl | now apply Qlt_le_weak].
    - right. split; [apply Qle_refl | exact H]. }
  assert (Hne1 : ~ pt_pnl b == pt_pnl a) by (rewrite Hb; intros E; apply Ha; now symmetry).
  assert (Hne2 : ~ pt_pnl c == pt_pnl b) by (rewrite Hb; exact Hc).
  exists (interpolated_root a b), (interpolated_root b c).
  split.
  - rewrite find_breakevens_total, breakevens_spec_split.
    pose proof (breakevens_spec_split [] b c post) as Hbc'. cbn [app] in Hbc'.
    rewrite Hbc'.
    rewrite (segment_breakeven_root a b Hab Hne1), (segment_breakeven_root b c Hbc Hne2).
    change (breakevens_spec [b]) with (@nil Q). reflexivity.
  - unfold interpolated_root. split.
    + rewrite Hb. field. intros E. apply Ha.
      setoid_replace (pt_pnl a) with (- (0 - pt_pnl a)) by ring. rewrite E. reflexivity.
    + rewrite Hb. field. exact Hc.
Qed.

Lemma zero_sample_is_reported_twice_witness :
  exists x y,
    find_breakevens [mkPoint 99 (-50); mkPoint 100 0; mkPoint 101 50] = Return [x; y] /\
    x == 100 /\ y == 100.
Proof.
  assert (Hb : pt_pnl (mkPoint 100 0) == 0) by reflexivity.
  assert (Ha : ~ pt_pnl (mkPoint 99 (-50)) == 0) by discriminate.
  assert (Hc : ~ pt_pnl (mkPoint 101 50) == 0) by discriminate.
  destruct (zero_sample_is_reported_twice [] [] (mkPoint 99 (-50)) (mkPoint 100 0)
              (mkPoint 101 50) Hb Ha Hc) as (x & y & H & Hx & Hy).
  exists x, y. split; [exact H|]. split; [exact Hx | exact Hy].
Defined.

Lemma option_value_price_compat (ot : string) (k p p' : Q) :
  p == p' -> option_value_at_expiry ot k p == option_value_at_expiry ot k p'.
Proof.
  intros H. unfold option_value_at_expiry.
  destruct (String.eqb ot "call"); [|destruct (String.eqb ot "put")].
  - rewrite !py_max2_Qmax. now rewrite H.
  - rewrite !py_max2_Qmax. now rewrite H.
  - reflexivity.
Qed.

Lemma total_pnl_price_compat (cost : Q) (ls : list Leg) (p p' : Q) :
  p == p' -> total_pnl cost ls p == total_pnl cost ls p'.
Proof.
  intros H. rewrite !total_pnl_sum. apply Qplus_inj_l.
  induction ls as [|leg ls IH]; [reflexivity|].
  cbn [map]. rewrite !Qsum_cons, IH. unfold leg_value_at.
  now rewrite (option_value_price_compat _ _ p p' H).
Qed.

Lemma flat_curve_no_breakevens (curve : list Point) (v : Q) :
  (forall pt, In pt curve -> pt_pnl pt == v) -> breakevens_spec curve = [].
Proof.
  intros Hflat. unfold breakevens_spec.
  assert (H : forall a b, In (a, b) (adjacent_pairs curve) -> segment_breakeven (a, b) = []).
  { intros a b Hin. destruct (adjacent_pairs_in _ _ _ Hin) as [Ha Hb].
    destruct (segment_breakeven_cases a b) as [E|(_ & _ & Hne)]; [exact E|].
    exfalso. apply Hne. now rewrite (Hflat a Ha), (Hflat b Hb). }
  induction (adjacent_pairs curve) as [|[a b] segs IH]; [reflexivity|].
  cbn [flat_map]. rewrite (H a b) by now left. apply IH.
  intros a' b' Hin. apply H. now right.
Qed.

(** X5.  With a price range of 0 percent every one of the 50 samples sits at
    the underlying price and carries the same P&L, so no breakeven is
    reported and max_profit equals max_loss. *)
Theorem zero_range_gives_flat_curve (s : string) (P r : Q) (ls : list Leg) :
  s <> ""%string -> ~ P == 0 -> ls <> [] -> r == 0 ->
  exists res,
    calculate_strategy_pnl (mkRequest (Some s) (Some P) (Some ls) (Some r)) = Payload res /\
    (forall pt, In pt (pnl_curve res) ->
       pt_price pt == P /\ pt_pnl pt == total_pnl (initial_cost ls) ls P) /\
    breakeven_points res = [] /\
    max_profit res == max_loss res.
Proof.
  intros Hs HP Hls Hr.
  rewrite (calculate_valid s P ls (Some r) Hs HP Hls). cbn [get].
  destruct (compute_returns s P r ls) as (mp & ml & -> & Hmax & Hmin).
  eexists; split; [reflexivity|].
  cbn [pnl_curve breakeven_points max_profit max_loss].
  assert (Hflat : forall pt, In pt (sampled_curve P r ls) ->
            pt_price pt == P /\ pt_pnl pt == total_pnl (initial_cost ls) ls P).
  { intros pt Hpt. unfold sampled_curve, build_curve in Hpt.
    apply in_map_iff in Hpt. destruct Hpt as (p & <- & Hp). cbn [pt_price pt_pnl].
    assert (Hp0 : p == P).
    { destruct (sample_prices_in P r p Hp) as (i & _ & ->). rewrite Hr. field. }
    split; [exact Hp0 | now apply total_pnl_price_compat]. }
  split; [exact Hflat|].
  split.
  - apply flat_curve_no_breakevens with (v := total_pnl (initial_cost ls) ls P).
    intros pt Hpt. apply (Hflat pt Hpt).
  - apply py_max_spec in Hmax. apply py_min_spec in Hmin.
    destruct Hmax as [_ Hmax], Hmin as [_ Hmin].
    apply in_map_iff in Hmax, Hmin.
    destruct Hmax as (a & <- & Ha), Hmin as (b & <- & Hb).
    rewrite (proj2 (Hflat a Ha)), (proj2 (Hflat b Hb)). reflexivity.
Qed.

Lemma zero_range_gives_flat_curve_witness :
  exists res,
    calculate_strategy_pnl
      (mkRequest (Some "long_call"%string) (Some 100) (Some [long_call]) (Some 0))
      = Payload res /\
    breakeven_points res = [] /\ max_profit res == max_loss res.
Proof.
  assert (Hs : "long_call"%string <> ""%string) by discriminate.
  assert (HP : ~ 100 == 0) by discriminate.
  assert (Hl : [long_call] <> []) by discriminate.
  assert (Hr : 0 == 0) by reflexivity.
  destruct (zero_range_gives_flat_curve "long_call" 100 0 [long_call] Hs HP Hl Hr)
    as (res & H & _ & Hb & Hm).
  exists res. split; [exact H|]. split; [exact Hb | exact Hm].
Defined.

End BreakevenTheorems.

(** * Further properties of the exposure aggregator *)

Section ExposureMore.
Import Exposure.

Lemma group_add_keys_indep (k v v' : Q) (g g' : list (Q * Q)) :
  map fst g = map fst g' ->
  map fst (group_add k v g) = map fst (group_add k v' g').
Proof.
  revert g'; induction g as [|[a b] g IH]; intros [|[a' b'] g'] H; try discriminate.
  - reflexivity.
  - cbn [map fst] in H. injection H as <- H.
    cbn [group_add]. destruct (k ?= a); cbn [map fst]; f_equal; auto.
    now f_equal.
Qed.

Lemma groupby_sum_keys_indep {A : Type} (key w w' : A -> Q) (l : list A) :
  map fst (groupby_sum (map (fun a => (key a, w a)) l)) =
  map fst (groupby_sum (map (fun a => (key a, w' a)) l)).
Proof.
  unfold groupby_sum.
  assert (H : forall g g', map fst g = map fst g' ->
    map fst (fold_left (fun groups row => group_add (fst row) (snd row) groups)
                       (map (fun a => (key a, w a)) l) g) =
    map fst (fold_left (fun groups row => group_add (fst row) (snd row) groups)
                       (map (fun a => (key a, w' a)) l) g')).
  { induction l as [|a l IH]; intros g g' Hg; cbn [map fold_left fst snd].
    - exact Hg.
    - apply IH. now apply group_add_keys_indep. }
  now apply H.
Qed.

Lemma group_add_length (k v : Q) (g : list (Q * Q)) :
  (1 <= List.length (group_add k v g) <= S (List.length g))%nat /\
  (List.length g <= List.length (group_add k v g))%nat.
Proof.
  induction g as [|[a b] g IH]; cbn [group_add List.length]; [lia|].
  destruct (k ?= a); cbn [List.length]; lia.
Qed.

Lemma group_fold_length (rows acc : list (Q * Q)) :
  let out := fold_left (fun groups row => group_add (fst row) (snd row) groups) rows acc in
  (List.length acc <= List.length out <= List.length rows + List.length acc)%nat.
Proof.
  revert acc; induction rows as [|[k v] rows IH]; intros acc;
    cbn [fold_left List.length fst snd].
  - cbv zeta. lia.
  - specialize (IH (group_add k v acc)). cbv zeta in *.
    pose proof (group_add_length k v acc). lia.
Qed.

Lemma groupby_sum_length (rows : list (Q * Q)) :
  rows <> [] ->
  (1 <= List.length (groupby_sum rows) <= List.length rows)%nat.
Proof.
  intros Hne. unfold groupby_sum.
  pose proof (group_fold_length rows []) as Hup. cbv zeta in Hup.
  destruct rows as [|[k v] rows]; [contradiction|].
  pose proof (group_fold_length rows [(k, v)]) as Hlow. cbv zeta in Hlow.
  cbn [fold_left fst snd List.length group_add] in *. lia.
Qed.

(** X6.  For one payload the two exposure operations agree on the outcome:
    either both answer with the same error message, or both return a result,
    and then the strikes lists of GEX and DEX are identical, with between one
    strike and as many strikes as contracts passed the greeks filter. *)
Theorem gex_and_dex_share_strikes (data : OptionsData) :
  (exists msg, calculate_gex data = ErrorPayload msg /\
               calculate_dex data = ErrorPayload msg) \/
  (exists g d, calculate_gex data = Payload g /\ calculate_dex data = Payload d /\
               gex_strikes g = dex_strikes d /\
               (1 <= List.length (gex_strikes g) <= List.length (surviving data))%nat).
Proof.
  unfold calculate_gex, calculate_dex, surviving.
  destruct (options data) as [| |chain].
  - left. eexists; split; reflexivity.
  - left. eexists; split; reflexivity.
  - rewrite !collect_filter, !truthy_list_map.
    destruct (filter has_greeks chain) as [|c cs] eqn:E.
    + left. eexists; split; reflexivity.
    + right. cbn [truthy_list negb]. eexists; eexists.
      split; [reflexivity|]. split; [reflexivity|].
      cbn [gex_strikes dex_strikes]. rewrite !map_map. split.
      * apply (groupby_sum_keys_indep strike contract_gex contract_dex).
      * rewrite length_map.
        pose proof (groupby_sum_length
                      (map (fun x => (gex_strike (gex_row x), gex (gex_row x))) (c :: cs))) as H.
        rewrite length_map in H. apply H. discriminate.
Qed.

Lemma filter_permutation {A : Type} (f : A -> bool) (l l' : list A) :
  Permutation l l' -> Permutation (filter f l) (filter f l').
Proof.
  induction 1 as [|x l l' _ IH|x y l|l l' l'' _ IH1 _ IH2]; cbn [filter].
  - constructor.
  - destruct (f x); [now constructor | exact IH].
  - destruct (f x), (f y); try apply Permutation_refl; apply perm_swap.
  - now apply Permutation_trans with (filter f l').
Qed.

Lemma at_strike_compat (k k' : Q) (contracts : list RawOption) :
  k == k' -> at_strike k contracts = at_strike k' contracts.
Proof.
  intros H. unfold at_strike. apply filter_ext. intros c.
  destruct (Qeq_bool (strike c) k) eqn:E; symmetry.
  - apply Qeq_bool_iff in E. apply Qeq_bool_iff. now rewrite E.
  - apply not_true_iff_false. apply not_true_iff_false in E.
    intros E'. apply E. apply Qeq_bool_iff in E'. apply Qeq_bool_iff. now rewrite E', H.
Qed.

(** X7.  The order of the entries in the chain does not change the exposure:
    for two payloads whose chains are permutations of each other (with at
    least one surviving contract) both GEX results have equal totals and, at
    equal strikes, equal per-strike values; the same holds for DEX. *)
Theorem chain_order_is_irrelevant (chain chain' : list RawOption) :
  Permutation chain chain' -> filter has_greeks chain <> [] ->
  (exists g g',
     calculate_gex (mkOptionsData (Chain chain)) = Payload g /\
     calculate_gex (mkOptionsData (Chain chain')) = Payload g' /\
     total_gex g == total_gex g' /\
     forall i j k k' v v',
       nth_error (gex_strikes g) i = Some k -> nth_error (gex_values g) i = Some v ->
       nth_error (gex_strikes g') j = Some k' -> nth_error (gex_values g') j = Some v' ->
       k == k' -> v == v') /\
  (exists d d',
     calculate_dex (mkOptionsData (Chain chain)) = Payload d /\
     calculate_dex (mkOptionsData (Chain chain')) = Payload d' /\
     total_dex d == total_dex d' /\
     forall i j k k' v v',
       nth_error (dex_strikes d) i = Some k -> nth_error (dex_values d) i = Some v ->
       nth_error (dex_strikes d') j = Some k' -> nth_error (dex_values d') j = Some v' ->
       k == k' -> v == v').
Proof.
  intros Hperm Hne.
  set (data := mkOptionsData (Chain chain)). set (data' := mkOptionsData (Chain chain')).
  assert (Hsurv : Permutation (surviving data) (surviving data'))
    by (apply filter_permutation; exact Hperm).
  assert (Hne1 : surviving data <> []) by exact Hne.
  assert (Hne2 : surviving data' <> []).
  { intros E. rewrite E in Hsurv. apply Permutation_sym, Permutation_nil in Hsurv.
    contradiction. }
  assert (Hat : forall (w : RawOption -> Q) k k', k == k' ->
            Qsum (map w (at_strike k (surviving data))) ==
            Qsum (map w (at_strike k' (surviving data')))).
  { intros w k k' Hk. rewrite (at_strike_compat k k' _ Hk).
    apply Qsum_permutation, Permutation_map. unfold at_strike.
    now apply filter_permutation. }
  split.
  - destruct (calculate_gex_cases data) as [[E _]|[_ Hg]]; [contradiction|].
    destruct (calculate_gex_cases data') as [[E _]|[_ Hg']]; [contradiction|].
    cbv zeta in Hg, Hg'. rewrite Hg, Hg'. eexists; eexists.
    split; [reflexivity|]. split; [reflexivity|].
    cbn [total_gex gex_strikes gex_values].
    destruct (aggregate_spec contract_gex (surviving data)) as (_ & _ & Hv & _ & _ & _ & Ht).
    destruct (aggregate_spec contract_gex (surviving data')) as (_ & _ & Hv' & _ & _ & _ & Ht').
    cbv zeta in *. split.
    + rewrite Ht, Ht'. now apply Qsum_permutation, Permutation_map.
    + intros i j k k' v v' Hk Hvi Hk' Hvj Hkk.
      rewrite (Hv i k v Hk Hvi), (Hv' j k' v' Hk' Hvj). now apply Hat.
  - destruct (calculate_dex_cases data) as [[E _]|[_ Hd]]; [contradiction|].
    destruct (calculate_dex_cases data') as [[E _]|[_ Hd']]; [contradiction|].
    cbv zeta in Hd, Hd'. rewrite Hd, Hd'. eexists; eexists.
    split; [reflexivity|]. split; [reflexivity|].
    cbn [total_dex dex_strikes dex_values].
    destruct (aggregate_spec contract_dex (surviving data)) as (_ & _ & Hv & _ & _ & _ & Ht).
    destruct (aggregate_spec contract_dex (surviving data')) as (_ & _ & Hv' & _ & _ & _ & Ht').
    cbv zeta in *. split.
    + rewrite Ht, Ht'. now apply Qsum_permutation, Permutation_map.
    + intros i j k k' v v' Hk Hvi Hk' Hvj Hkk.
      rewrite (Hv i k v Hk Hvi), (Hv' j k' v' Hk' Hvj). now apply Hat.
Qed.

Lemma chain_order_is_irrelevant_witness :
  exists g g',
    calculate_gex (mkOptionsData (Chain [call_105; put_105])) = Payload g /\
    calculate_gex (mkOptionsData (Chain [put_105; call_105])) = Payload g' /\
    total_gex g == total_gex g'.
Proof.
  assert (Hne : filter has_greeks [call_105; put_105] <> []) by discriminate.
  destruct (chain_order_is_irrelevant [call_105; put_105] [put_105; call_105]
              (perm_swap _ _ _) Hne) as [(g & g' & H & H' & Ht & _) _].
  exists g, g'. split; [exact H|]. split; [exact H' | exact Ht].
Defined.

End ExposureMore.

(** * Further properties of the backtest runner *)

Section CoveredCallMore.
Import Backtest.

(** What the Covered Call branch returns, in terms of the helper lemmas. *)
Lemma covered_call_run (first : Day) (rest : list Day) (cap : Q) :
  (close first == 0 -> 0 <= cap) ->
  let df := first :: rest in
  let ps := if Qlt_le_dec cap (close first * 100)
            then py_int (cap / close first) else 100%Z in
  exists cash new,
    covered_call df cap =
      Return (mkCoveredCall ps cash new
                (cash + close_at df (List.length df - 1) * inject_Z ps)) /\
    map fields_of new = map (entry_of df ps) (premium_days df) /\
    cash == cap - close first * inject_Z ps + Qsum (map premium new).
Proof.
  intros Hzero df ps.
  assert (Hps : (if Qlt_le_dec cap (close first * inject_Z 100)
                 then int_of_quotient cap (close first)
                 else Return 100%Z) = Return ps).
  { unfold ps. change (inject_Z 100) with 100.
    destruct (Qlt_le_dec cap (close first * 100)) as [Hlt|Hle]; [|reflexivity].
    unfold int_of_quotient. destruct (Qeq_bool (close first) 0) eqn:E; [|reflexivity].
    apply Qeq_bool_iff in E. exfalso. specialize (Hzero E).
    rewrite E, Qmult_0_l in Hlt.
    apply (Qlt_irrefl 0). now apply Qle_lt_trans with cap. }
  assert (Hidx : Forall (fun i => (i < List.length df)%nat) (seq 1 (List.length df - 1))).
  { apply Forall_forall. intros i Hi. apply in_seq in Hi. lia. }
  destruct (collect_premiums_spec df ps _ Hidx (cap - close first * inject_Z ps) [])
    as (cash & new & Hrun & Hf & Hc & _).
  exists cash, new. split; [|split; [exact Hf | exact Hc]].
  unfold covered_call. cbn [iloc nth_error df bind]. rewrite Hps. cbn [bind].
  fold df. rewrite Hrun. cbn [bind app]. unfold iloc_last.
  rewrite iloc_nth by (simpl; lia). reflexivity.
Qed.

Lemma position_size_bounds (c0 cap : Q) :
  0 <= cap -> 0 < c0 ->
  let ps := if Qlt_le_dec cap (c0 * 100) then py_int (cap / c0) else 100%Z in
  (0 <= ps <= 100)%Z /\ inject_Z ps * c0 <= cap.
Proof.
  intros Hcap Hc ps. unfold ps.
  destruct (Qlt_le_dec cap (c0 * 100)) as [Hlt|Hle].
  - assert (Hq : 0 <= cap / c0).
    { apply Qle_shift_div_l; [exact Hc | now rewrite Qmult_0_l]. }
    rewrite (py_int_floor _ Hq).
    destruct (floor_affordable cap c0 Hc) as [Hlo _].
    split; [|exact Hlo]. split.
    + change 0%Z with (Qfloor 0). now apply Qfloor_resp_le.
    + change 100%Z with (Qfloor 100). apply Qfloor_resp_le.
      apply Qle_shift_div_r; [exact Hc|]. apply Qlt_le_weak.
      now rewrite Qmult_comm.
  - split; [lia|]. change (inject_Z 100) with 100. now rewrite Qmult_comm.
Qed.

(** X8.  With a non-negative capital and a positive first close the Covered
    Call branch never spends more than it has: it holds between 0 and 100
    shares and their cost at the first close is at most the initial
    capital. *)
Theorem covered_call_never_overspends (first : Day) (rest : list Day) (cap : Q) :
  0 <= cap -> 0 < close first ->
  exists r,
    covered_call (first :: rest) cap = Return r /\
    (0 <= position_size r <= 100)%Z /\
    inject_Z (position_size r) * close first <= cap.
Proof.
  intros Hcap Hc.
  destruct (covered_call_run first rest cap) as (cash & new & Hrun & _ & _).
  { intros E. rewrite E in Hc. discriminate. }
  cbv zeta in Hrun. rewrite Hrun. eexists; split; [reflexivity|].
  cbn [position_size]. now apply position_size_bounds.
Qed.

Lemma covered_call_never_overspends_witness :
  exists r,
    covered_call rising_month 2550 = Return r /\
    inject_Z (position_size r) * 100 <= 2550.
Proof.
  assert (Hcap : 0 <= 2550) by discriminate.
  assert (Hc : 0 < close (mkDay "day" (100 + inject_Z (Z.of_nat 0)))) by reflexivity.
  destruct (covered_call_never_overspends
              (mkDay "day" (100 + inject_Z (Z.of_nat 0)))
              (map (fun i => mkDay "day" (100 + inject_Z (Z.of_nat i))) (seq 1 30))
              2550 Hcap Hc) as (r & Hr & _ & Hle).
  exists r. split; [exact Hr | exact Hle].
Defined.

Lemma multiples_of_30_count (n : nat) :
  List.length (filter (fun i => Nat.eqb (i mod 30) 0) (seq 1 n)) = (n / 30)%nat.
Proof.
  induction n as [|n IH]; [reflexivity|].
  rewrite seq_S, filter_app, length_app, IH. cbn [filter Nat.add].
  pose proof (Nat.div_mod_eq n 30) as H1.
  pose proof (Nat.div_mod_eq (S n) 30) as H2.
  pose proof (Nat.mod_upper_bound n 30) as H3.
  pose proof (Nat.mod_upper_bound (S n) 30) as H4.
  destruct (Nat.eqb_spec (S n mod 30) 0) as [E|E]; cbn [List.length]; lia.
Qed.

Lemma premium_days_length (df : list Day) :
  List.length (premium_days df) = ((List.length df - 1) / 30)%nat.
Proof. unfold premium_days. apply multiples_of_30_count. Qed.

(** X9.  The Covered Call ledger has exactly [(n - 1) / 30] entries for a
    history of [n] days (integer division), one for each of the indices
    30, 60, ...; up to 30 days of history it is empty, no premium is
    collected and the final capital is the initial capital plus the change
    in value of the shares. *)
Theorem covered_call_ledger_count (first : Day) (rest : list Day) (cap : Q) :
  (close first == 0 -> 0 <= cap) ->
  let df := first :: rest in
  exists r,
    covered_call df cap = Return r /\
    List.length (trade_history r) = ((List.length df - 1) / 30)%nat /\
    map trade_date (trade_history r) = map (date_at df) (premium_days df) /\
    Forall (fun i => (1 <= i < List.length df)%nat /\ (i mod 30 = 0)%nat) (premium_days df) /\
    ((List.length df <= 30)%nat ->
     trade_history r = [] /\
     final_capital r ==
       cap + inject_Z (position_size r)
             * (close_at df (List.length df - 1) - close first)).
Proof.
  intros Hzero df.
  destruct (covered_call_run first rest cap Hzero) as (cash & new & Hrun & Hf & Hc).
  cbv zeta in Hrun. fold df in Hrun, Hf. rewrite Hrun. eexists; split; [reflexivity|].
  cbn [trade_history final_capital position_size].
  assert (Hlen : List.length new = ((List.length df - 1) / 30)%nat).
  { rewrite <- premium_days_length. apply (f_equal (@List.length _)) in Hf.
    now rewrite !length_map in Hf. }
  split; [exact Hlen|].
  split.
  { apply (f_equal (map (fun e => fst (fst (fst e))))) in Hf.
    rewrite !map_map in Hf. exact Hf. }
  split.
  { apply Forall_forall. intros i Hi. unfold premium_days in Hi.
    apply filter_In in Hi. destruct Hi as [Hi Hm]. apply in_seq in Hi.
    apply Nat.eqb_eq in Hm. lia. }
  intros Hshort.
  assert (Hnil : new = []).
  { destruct new; [reflexivity|]. cbn [List.length] in Hlen.
    rewrite Nat.div_small in Hlen by lia. discriminate. }
  split; [exact Hnil|]. rewrite Hc, Hnil. cbn [map Qsum fold_right]. ring.
Qed.

Lemma covered_call_ledger_count_witness :
  exists r,
    covered_call three_days 10000 = Return r /\
    trade_history r = [].
Proof.
  assert (Hz : close (mkDay "2024-01-02" 100) == 0 -> 0 <= 10000) by (intros _; discriminate).
  destruct (covered_call_ledger_count (mkDay "2024-01-02" 100)
              [mkDay "2024-01-03" 110; mkDay "2024-01-04" 99] 10000 Hz)
    as (r & Hr & _ & _ & _ & Hshort).
  exists r. split; [exact Hr|]. apply Hshort. cbn [List.length]. lia.
Defined.

Lemma premiums_nonneg (df : list Day) (ps : Z) (new : list Trade) :
  Forall (fun d => 0 < close d) df -> (0 <= ps)%Z ->
  map fields_of new = map (entry_of df ps) (premium_days df) ->
  0 <= Qsum (map premium new).
Proof.
  intros Hpos Hps Hf. apply Qsum_nonneg.
  apply (f_equal (map snd)) in Hf. rewrite !map_map in Hf.
  change (map (fun t => snd (fields_of t)) new) with (map premium new) in Hf.
  rewrite Hf. apply Forall_map. apply Forall_forall. intros i Hi.
  unfold premium_days in Hi. apply filter_In in Hi. destruct Hi as [Hi _].
  apply in_seq in Hi. cbn [entry_of snd].
  assert (Hc : 0 < close_at df i).
  { unfold close_at. rewrite Forall_forall in Hpos. apply Hpos. apply nth_In. lia. }
  assert (Hz : 0 <= inject_Z ps) by (change 0 with (inject_Z 0); now rewrite <- Zle_Qle).
  apply Qmult_le_0_compat; [|exact Hz].
  apply Qmult_le_0_compat; [now apply Qlt_le_weak | discriminate].
Qed.

(** X10.  With positive closes and a non-negative capital the premiums only
    add: the final capital of the Covered Call branch is at least the initial
    capital plus the change in value of the shares.  So it is at least the
    initial capital when the last close is not below the first, and strictly
    above it when the last close is above the first and at least one share
    was affordable. *)
Theorem covered_call_gains_on_rise (first : Day) (rest : list Day) (cap : Q) :
  0 <= cap -> Forall (fun d => 0 < close d) (first :: rest) ->
  let df := first :: rest in
  let last := close_at df (List.length df - 1) in
  exists r,
    covered_call df cap = Return r /\
    cap + inject_Z (position_size r) * (last - close first) <= final_capital r /\
    (close first <= last -> cap <= final_capital r) /\
    (close first < last -> (1 <= position_size r)%Z -> cap < final_capital r).
Proof.
  intros Hcap Hpos df last.
  assert (Hc : 0 < close first) by (inversion Hpos; assumption).
  destruct (covered_call_run first rest cap) as (cash & new & Hrun & Hf & Hcash).
  { intros E. rewrite E in Hc. discriminate. }
  cbv zeta in Hrun. fold df in Hrun, Hf. rewrite Hrun. eexists; split; [reflexivity|].
  cbn [position_size final_capital]. fold last.
  destruct (position_size_bounds (close first) cap Hcap Hc) as [[Hps0 _] _].
  cbv zeta in Hps0.
  pose proof (premiums_nonneg df _ new Hpos Hps0 Hf) as Hprem.
  set (ps := if Qlt_le_dec cap (close first * 100)
             then py_int (cap / close first) else 100%Z) in *.
  assert (Hz : 0 <= inject_Z ps)
    by (change 0 with (inject_Z 0); now rewrite <- Zle_Qle).
  assert (Hone : (1 <= ps)%Z -> 1 <= inject_Z ps)
    by (intros H; change 1 with (inject_Z 1); now rewrite <- Zle_Qle).
  revert Hz Hone Hcash Hprem.
  generalize (inject_Z ps) as n. generalize (Qsum (map premium new)) as prem.
  intros prem n Hz Hone Hcash Hprem.
  assert (Hmain : cap + n * (last - close first) <= cash + last * n)
    by (rewrite Hcash; Lqa.lra).
  split; [exact Hmain|]. split.
  - intros Hrise.
    assert (0 <= n * (last - close first)) by (apply Qmult_le_0_compat; Lqa.lra).
    Lqa.lra.
  - intros Hrise Hps1. specialize (Hone Hps1).
    assert (0 <= (n - 1) * (last - close first)) by (apply Qmult_le_0_compat; Lqa.lra).
    Lqa.lra.
Qed.

Lemma covered_call_gains_on_rise_witness :
  exists r,
    covered_call rising_month 2550 = Return r /\
    2550 < final_capital r.
Proof.
  assert (Hcap : 0 <= 2550) by discriminate.
  assert (Hpos : Forall (fun d => 0 < close d) rising_month).
  { apply Forall_forall. intros d Hd. unfold rising_month in Hd.
    apply in_map_iff in Hd. destruct Hd as (i & <- & _). cbn [close].
    assert (0 <= inject_Z (Z.of_nat i))
      by (change 0 with (inject_Z 0); rewrite <- Zle_Qle; lia).
    Lqa.lra. }
  destruct (covered_call_gains_on_rise
              (mkDay "day" (100 + inject_Z (Z.of_nat 0)))
              (map (fun i => mkDay "day" (100 + inject_Z (Z.of_nat i))) (seq 1 30))
              2550 Hcap Hpos) as (r & Hr & _ & _ & Hstrict).
  exists r. split; [exact Hr|]. apply Hstrict.
  - reflexivity.
  - unfold rising_month in Hr. cbn [seq map] in Hr.
    injection Hr as <-. cbn [position_size]. discriminate.
Defined.

End CoveredCallMore.

Section IronCondorFacts.
Import Backtest Simulation.

Lemma range_step_cycles (n : nat) :
  range_step (Z.of_nat n - 30) 30 = map (fun k => (k * 30)%nat) (seq 0 ((n - 1) / 30)).
Proof.
  unfold range_step. f_equal. f_equal.
  change (Z.of_nat 30) with 30%Z.
  replace (Z.of_nat n - 30 + 30 - 1)%Z with (Z.of_nat n - 1)%Z by lia.
  destruct n as [|n].
  - reflexivity.
  - replace (Z.of_nat (S n) - 1)%Z with (Z.of_nat n) by lia.
    replace (S n - 1)%nat with n by lia.
    change 30%Z with (Z.of_nat 30). rewrite <- Nat2Z.inj_div. apply Nat2Z.id.
Qed.

Lemma cycle_indices_in_range (n k : nat) :
  In k (seq 0 ((n - 1) / 30)) -> (k * 30 + 30 < n)%nat.
Proof.
  intros H. apply in_seq in H.
  pose proof (Nat.div_mod_eq (n - 1) 30) as H1.
  pose proof (Nat.mod_upper_bound (n - 1) 30) as H2.
  destruct n; [simpl in H; lia|]. lia.
Qed.

Lemma condor_fold_cons (df : list Day) (i : nat) (indices : list nat)
    (state state' : CondorState) :
  condor_step df state i = Return state' ->
  fold_left (fun acc i => state <- acc ;; condor_step df state i) (i :: indices)
            (Return state) =
  fold_left (fun acc i => state <- acc ;; condor_step df state i) indices
            (Return state').
Proof. intros H. cbn [fold_left bind]. now rewrite H. Qed.

Lemma last_default_irrelevant {A : Type} (x : A) (l : list A) (d d' : A) :
  last (x :: l) d = last (x :: l) d'.
Proof.
  revert x; induction l as [|y l IH]; intros x; [reflexivity|].
  change (last (x :: y :: l) d) with (last (y :: l) d).
  change (last (x :: y :: l) d') with (last (y :: l) d'). apply IH.
Qed.

Lemma condor_run (df : list Day) (indices : list nat) :
  Forall (fun i => (i + 30 < List.length df)%nat) indices ->
  forall (cap : Q) (hist : list Cycle),
  exists cap' new,
    fold_left (fun acc i => state <- acc ;; condor_step df state i) indices
              (Return (mkCondorState false cap hist)) =
      Return (mkCondorState false cap' (hist ++ new)) /\
    map cycle_fields new = map (window_fields df) indices /\
    Forall profit_rule new /\
    (0 <= cap ->
     cap * qpow (95 # 100) (List.length indices) <= cap' /\
     cap' <= cap * qpow (103 # 100) (List.length indices)) /\
    (0 < cap -> 0 < cap') /\
    cap' = last (map cycle_capital new) cap.
Proof.
  induction 1 as [|i indices Hi _ IH]; intros cap hist.
  - exists cap, []. rewrite app_nil_r. cbn [fold_left map List.length qpow last].
    repeat split; try reflexivity; try constructor; try tauto;
      intros; rewrite Qmult_1_r; apply Qle_refl.
  - set (factor := if small_move (close_at df i) (close_at df (i + 30))
                   then 103 # 100 else 95 # 100).
    set (gain := if small_move (close_at df i) (close_at df (i + 30))
                 then cap * (3 # 100) else - cap * (5 # 100)).
    set (c0 := mkCycle (date_at df (i + 30)) "Iron Condor Cycle"
                       (close_at df i) (close_at df (i + 30)) gain (cap + gain)).
    assert (Hstep : condor_step df (mkCondorState false cap hist) i =
                    Return (mkCondorState false (cap + gain) (hist ++ [c0]))).
    { unfold condor_step. cbn [broke condor_capital condor_history].
      destruct (Nat.leb_spec (List.length df) (i + 30)) as [H|_]; [lia|].
      rewrite (iloc_nth df i) by lia. rewrite (iloc_nth df (i + 30)) by lia.
      reflexivity. }
    rewrite (condor_fold_cons _ _ _ _ _ Hstep).
    destruct (IH (cap + gain) (hist ++ [c0]))
      as (cap' & new & Hrun & Hf & Hrule & Hb & Hpos & Hlast).
    assert (Hgain : cap + gain == cap * factor).
    { unfold gain, factor.
      destruct (small_move (close_at df i) (close_at df (i + 30))); ring. }
    assert (Hfac : (95 # 100) <= factor /\ factor <= (103 # 100)).
    { unfold factor. destruct (small_move (close_at df i) (close_at df (i + 30)));
        split; discriminate. }
    exists cap', (c0 :: new). rewrite Hrun, <- app_assoc.
    split; [reflexivity|]. split; [cbn [map]; now rewrite Hf|].
    split.
    { constructor; [|exact Hrule]. unfold profit_rule, c0. cbn [profit cycle_capital].
      unfold gain. destruct (small_move (close_at df i) (close_at df (i + 30)));
        [left | right]; ring. }
    split.
    { intros Hcap.
      assert (H0 : 0 <= cap + gain).
      { rewrite Hgain. apply Qmult_le_0_compat; [exact Hcap|].
        apply Qle_trans with (95 # 100); [discriminate | apply Hfac]. }
      destruct (Hb H0) as [Hlo Hhi]. cbn [List.length qpow].
      assert (Hq95 : 0 <= qpow (95 # 100) (List.length indices)).
      { clear. induction (List.length indices); cbn [qpow]; [discriminate|].
        apply Qmult_le_0_compat; [discriminate | assumption]. }
      assert (Hq103 : 0 <= qpow (103 # 100) (List.length indices)).
      { clear. induction (List.length indices); cbn [qpow]; [discriminate|].
        apply Qmult_le_0_compat; [discriminate | assumption]. }
      split.
      - apply Qle_trans with ((cap + gain) * qpow (95 # 100) (List.length indices));
          [|exact Hlo].
        rewrite Hgain, Qmult_assoc. apply Qmult_le_compat_r; [|exact Hq95].
        rewrite (Qmult_comm cap). rewrite (Qmult_comm cap).
        apply Qmult_le_compat_r; [apply Hfac | exact Hcap].
      - apply Qle_trans with ((cap + gain) * qpow (103 # 100) (List.length indices));
          [exact Hhi|].
        rewrite Hgain, Qmult_assoc. apply Qmult_le_compat_r; [|exact Hq103].
        rewrite (Qmult_comm cap). rewrite (Qmult_comm cap _).
        apply Qmult_le_compat_r; [apply Hfac | exact Hcap]. }
    split.
    { intros Hcap. apply Hpos. rewrite Hgain.
      apply Qmult_lt_0_compat; [exact Hcap|].
      apply Qlt_le_trans with (95 # 100); [reflexivity | apply Hfac]. }
    rewrite Hlast. cbn [map cycle_capital c0].
    destruct (map cycle_capital new) as [|q l]; [reflexivity|].
    change (last (cap + gain :: q :: l) cap) with (last (q :: l) cap).
    apply last_default_irrelevant.
Qed.

End IronCondorFacts.

Section SimulationTheorems.
Import Backtest Simulation.

Lemma iron_condor_run (df : list Day) (cap : Q) :
  exists cap' new,
    iron_condor df cap = Return (mkCondorState false cap' new) /\
    map cycle_fields new = map (window_fields df) (window_starts df) /\
    Forall profit_rule new /\
    (0 <= cap ->
     cap * qpow (95 # 100) ((List.length df - 1) / 30) <= cap' /\
     cap' <= cap * qpow (103 # 100) ((List.length df - 1) / 30)) /\
    (0 < cap -> 0 < cap') /\
    cap' = last (map cycle_capital new) cap.
Proof.
  unfold iron_condor. rewrite range_step_cycles. fold (window_starts df).
  assert (Hidx : Forall (fun i => (i + 30 < List.length df)%nat) (window_starts df)).
  { apply Forall_forall. intros i Hi. unfold window_starts in Hi.
    apply in_map_iff in Hi. destruct Hi as (k & <- & Hk).
    now apply cycle_indices_in_range. }
  destruct (condor_run df _ Hidx cap []) as (cap' & new & Hrun & Hf & Hr & Hb & Hp & Hl).
  exists cap', new. cbn [app] in Hrun.
  assert (Hn : List.length (window_starts df) = ((List.length df - 1) / 30)%nat)
    by (unfold window_starts; now rewrite length_map, length_seq).
  rewrite Hn in Hb.
  split; [exact Hrun|]. split; [exact Hf|]. split; [exact Hr|].
  split; [exact Hb|]. split; [exact Hp | exact Hl].
Qed.

(** X11.  The Iron Condor branch never fails and never reaches its [break]:
    for a history of [n] days it records exactly [(n - 1) / 30] cycles, the
    k-th over the window from index [30 k] to index [30 k + 30] (entry
    price, exit price and date of the exit day); with at most 30 days there
    is no cycle and the final capital is the initial capital. *)
Theorem iron_condor_cycles (df : list Day) (cap : Q) :
  exists st,
    iron_condor df cap = Return st /\
    broke st = false /\
    List.length (condor_history st) = ((List.length df - 1) / 30)%nat /\
    map cycle_fields (condor_history st) =
      map (fun k => (date_at df (k * 30 + 30), "Iron Condor Cycle"%string,
                     close_at df (k * 30), close_at df (k * 30 + 30)))
          (seq 0 ((List.length df - 1) / 30)) /\
    ((List.length df <= 30)%nat -> condor_history st = [] /\ condor_capital st = cap).
Proof.
  destruct (iron_condor_run df cap) as (cap' & new & -> & Hf & _ & _ & _ & Hl).
  eexists; split; [reflexivity|]. cbn [broke condor_history condor_capital].
  assert (Hlen : List.length new = ((List.length df - 1) / 30)%nat).
  { apply (f_equal (@List.length _)) in Hf. unfold window_starts in Hf.
    now rewrite !length_map, length_seq in Hf. }
  split; [reflexivity|]. split; [exact Hlen|]. split.
  - rewrite Hf. unfold window_starts. now rewrite map_map.
  - intros Hshort. rewrite Nat.div_small in Hlen by lia.
    destruct new; [|discriminate]. split; [reflexivity | exact Hl].
Qed.

(** X12.  Each Iron Condor cycle gains 3 percent of the capital before it or
    loses 5 percent of it, so after the [c = (n - 1) / 30] cycles of an
    [n]-day history a non-negative initial capital ends between
    [capital * 0.95^c] and [capital * 1.03^c]; a positive capital stays
    positive; and the final capital is the capital of the last ledger
    entry. *)
Theorem iron_condor_capital_bounds (df : list Day) (cap : Q) :
  0 <= cap ->
  exists st,
    iron_condor df cap = Return st /\
    Forall profit_rule (condor_history st) /\
    cap * qpow (95 # 100) ((List.length df - 1) / 30) <= condor_capital st /\
    condor_capital st <= cap * qpow (103 # 100) ((List.length df - 1) / 30) /\
    (0 < cap -> 0 < condor_capital st) /\
    condor_capital st = last (map cycle_capital (condor_history st)) cap.
Proof.
  intros Hcap.
  destruct (iron_condor_run df cap) as (cap' & new & -> & _ & Hr & Hb & Hp & Hl).
  eexists; split; [reflexivity|]. cbn [condor_history condor_capital].
  destruct (Hb Hcap) as [Hlo Hhi].
  split; [exact Hr|]. split; [exact Hlo|]. split; [exact Hhi|].
  split; [exact Hp | exact Hl].
Qed.

Lemma iron_condor_capital_bounds_witness :
  exists st,
    iron_condor rising_month 1000 = Return st /\
    1000 * qpow (95 # 100) 1 <= condor_capital st /\
    condor_capital st <= 1000 * qpow (103 # 100) 1.
Proof.
  assert (Hcap : 0 <= 1000) by discriminate.
  destruct (iron_condor_capital_bounds rising_month 1000 Hcap)
    as (st & Hst & _ & Hlo & Hhi & _).
  exists st. split; [exact Hst|]. split; [exact Hlo | exact Hhi].
Defined.

(** X13.  With a non-zero first close the default branch ends at
    [capital * (1 + m * (last - first) / first)], where the multiplier [m]
    is 1.2 for a name containing "Bull", otherwise 0.8 for a name containing
    "Bear", otherwise 1; its ledger is an entry at the first close with the
    initial capital and an exit at the last close with the final capital.
    When the last close equals the first, a one-day history included, the
    final capital is the initial capital whatever the strategy. *)
Theorem buy_and_hold_result (nm : string) (first : Day) (rest : list Day) (cap : Q) :
  ~ close first == 0 ->
  let df := first :: rest in
  let sell := close_at df (List.length df - 1) in
  exists h,
    buy_and_hold nm df cap = Return (Some h) /\
    hold_final_capital h ==
      cap * (1 + multiplier nm * (sell - close first) / close first) /\
    hold_history h =
      [mkPosition (date first) "Entry" (close first) cap;
       mkPosition (date_at df (List.length df - 1)) "Exit" sell (hold_final_capital h)] /\
    (sell == close first -> hold_final_capital h == cap) /\
    (rest = [] -> hold_final_capital h == cap).
Proof.
  intros Hne df sell.
  assert (Hlast : iloc_last df = Return (nth (List.length df - 1) df (mkDay "" 0))).
  { unfold iloc_last. apply iloc_nth. simpl. lia. }
  unfold buy_and_hold. cbn [iloc nth_error df bind]. fold df. rewrite Hlast. cbn [bind].
  destruct (Qeq_bool (close first) 0) eqn:E; [apply Qeq_bool_iff in E; contradiction|].
  eexists; split; [reflexivity|]. cbn [hold_final_capital hold_history].
  fold (close_at df (List.length df - 1)). fold sell.
  assert (Hfinal :
    cap + (if contains "Bull" nm then cap * ((sell - close first) / close first) * (12 # 10)
           else if contains "Bear" nm
                then cap * ((sell - close first) / close first) * (8 # 10)
                else cap * ((sell - close first) / close first)) ==
    cap * (1 + multiplier nm * (sell - close first) / close first)).
  { unfold multiplier. destruct (contains "Bull" nm); [|destruct (contains "Bear" nm)];
      field; exact Hne. }
  split; [exact Hfinal|]. split; [reflexivity|].
  assert (Hflat : sell == close first ->
    cap + (if contains "Bull" nm then cap * ((sell - close first) / close first) * (12 # 10)
           else if contains "Bear" nm
                then cap * ((sell - close first) / close first) * (8 # 10)
                else cap * ((sell - close first) / close first)) == cap).
  { intros Hs. rewrite Hfinal, Hs. field. exact Hne. }
  split; [exact Hflat|].
  intros ->. apply Hflat. reflexivity.
Qed.

Lemma buy_and_hold_result_witness :
  exists h,
    buy_and_hold "Bull Call Spread" three_days 10000 = Return (Some h) /\
    hold_final_capital h ==
      10000 * (1 + multiplier "Bull Call Spread" * (99 - 100) / 100).
Proof.
  assert (Hne : ~ close (mkDay "2024-01-02" 100) == 0) by discriminate.
  destruct (buy_and_hold_result "Bull Call Spread" (mkDay "2024-01-02" 100)
              [mkDay "2024-01-03" 110; mkDay "2024-01-04" 99] 10000 Hne)
    as (h & Hh & Hf & _).
  exists h. split; [exact Hh | exact Hf].
Defined.

End SimulationTheorems.

Section DispatchTheorems.
Import Backtest Simulation.

Lemma find_strategy_unknown (id : string) :
  ~ In id (map strategy_id strategies) -> find_strategy id = None.
Proof.
  unfold find_strategy. induction strategies as [|s l IH]; [reflexivity|].
  intros Hn. cbn [find]. destruct (String.eqb_spec (strategy_id s) id) as [E|_].
  - exfalso. apply Hn. now left.
  - apply IH. intros H. apply Hn. now right.
Qed.

(** X14.  The outcome of a backtest, up to its metrics.  A fetch error is
    passed on and a missing history is reported before the strategy id is
    looked at; an empty list of days fails on the close column; an id outside
    the catalogue gives "Strategy not found".  Of the ten templates only
    covered-call and iron-condor have a simulation of their own; the other
    eight run the default buy-and-hold branch, with multiplier 1.2 for
    bull-call-spread, 0.8 for bear-put-spread and 1 for the rest. *)
Theorem run_backtest_outcomes (market : MarketData) (id : string) (cap : Q) :
  (forall msg, market = FetchError msg -> run_backtest market id cap = Error msg) /\
  (market = NoHistory ->
   run_backtest market id cap =
   Error "No historical data available for backtest period") /\
  (market = History [] -> run_backtest market id cap = FailedKeyError "close") /\
  (forall d ds, market = History (d :: ds) ->
     (~ In id (map strategy_id strategies) ->
      run_backtest market id cap = Error "Strategy not found") /\
     (id = "covered-call"%string ->
      run_backtest market id cap =
      match covered_call (d :: ds) cap with
      | Return r =>
          Ran (mkRun "Covered Call" (final_capital r) (SellCalls (trade_history r)))
      | Raise e => Failed e
      end) /\
     (id = "iron-condor"%string ->
      exists st,
        iron_condor (d :: ds) cap = Return st /\
        run_backtest market id cap =
        Ran (mkRun "Iron Condor" (condor_capital st) (Cycles (condor_history st)))) /\
     (In id (map strategy_id strategies) ->
      id <> "covered-call"%string -> id <> "iron-condor"%string ->
      exists s,
        find_strategy id = Some s /\ strategy_id s = id /\
        multiplier (name s) =
          (if String.eqb id "bull-call-spread" then 12 # 10
           else if String.eqb id "bear-put-spread" then 8 # 10 else 1) /\
        run_backtest market id cap =
        match buy_and_hold (name s) (d :: ds) cap with
        | Return (Some h) =>
            Ran (mkRun (name s) (hold_final_capital h) (Positions (hold_history h)))
        | Return None => NotFinite
        | Raise e => Failed e
        end)).
Proof.
  split; [now intros msg ->|]. split; [now intros ->|]. split; [now intros ->|].
  intros d ds ->. split; [|split; [|split]].
  - intros Hn. unfold run_backtest. now rewrite (find_strategy_unknown id Hn).
  - intros ->. unfold run_backtest. cbn [find_strategy find strategies strategy_id name].
    change (String.eqb "covered-call" "covered-call") with true. cbv iota.
    unfold simulate. change (String.eqb "Covered Call" "Covered Call") with true.
    cbv iota. destruct (covered_call (d :: ds) cap); reflexivity.
  - intros ->. destruct (iron_condor_run (d :: ds) cap) as (cap' & new & Hrun & _).
    eexists; split; [exact Hrun|].
    unfold run_backtest.
    change (find_strategy "iron-condor") with (Some (mkStrategy "iron-condor" "Iron Condor")).
    cbv iota. cbn [name]. unfold simulate.
    change (String.eqb "Iron Condor" "Covered Call") with false.
    change (String.eqb "Iron Condor" "Iron Condor") with true. cbv iota.
    rewrite Hrun. reflexivity.
  - intros Hin Hcc Hic. cbn [map strategies strategy_id In] in Hin.
    destruct Hin as [H|[H|[H|[H|[H|[H|[H|[H|[H|[H|[]]]]]]]]]]]; subst id;
      try contradiction;
      (eexists; split; [reflexivity|]; split; [reflexivity|]; split; [reflexivity|];
       unfold run_backtest;
       match goal with
       | |- context [find_strategy ?i] =>
           let v := eval compute in (find_strategy i) in
           change (find_strategy i) with v
       end;
       cbv iota; cbn [name]; unfold simulate;
       match goal with
       | |- context [String.eqb ?n "Covered Call"] =>
           change (String.eqb n "Covered Call") with false
       end;
       match goal with
       | |- context [String.eqb ?n "Iron Condor"] =>
           change (String.eqb n "Iron Condor") with false
       end;
       cbv iota;
       match goal with
       | |- context [buy_and_hold ?n ?df ?c] =>
           destruct (buy_and_hold n df c) as [[h|]|e]; reflexivity
       end).
Qed.

End DispatchTheorems.

(** * Maximum drawdown *)

(** A positive number is not zero. *)
Ltac positive_nonzero :=
  let E := fresh "E" in
  intros E;
  match goal with
  | H : 0 < ?x |- _ => rewrite E in H; discriminate H
  end.

Section DrawdownFacts.
Import Drawdown.

Lemma py_max2_scaled (P c k m cum : Q) :
  0 < k -> m == P * k -> cum == c * k -> py_max2 m cum == py_max2 P c * k.
Proof.
  intros Hk Hm Hc. rewrite !py_max2_Qmax.
  destruct (Qlt_le_dec P c) as [H|H].
  - rewrite (Q.max_r P c) by now apply Qlt_le_weak.
    rewrite Q.max_r; [exact Hc|]. rewrite Hm, Hc.
    apply Qmult_le_compat_r; [now apply Qlt_le_weak | now apply Qlt_le_weak].
  - rewrite (Q.max_l P c) by exact H.
    rewrite Q.max_l; [exact Hm|]. rewrite Hm, Hc.
    apply Qmult_le_compat_r; [exact H | now apply Qlt_le_weak].
Qed.

Lemma py_max2_pos (a b : Q) : 0 < a -> 0 < py_max2 a b.
Proof.
  intros Ha. destruct (py_max2_cases a b) as [[-> _]|[-> H]]; [exact Ha|].
  now apply Qlt_trans with a.
Qed.

Lemma py_max2_ge_r (a b : Q) : b <= py_max2 a b.
Proof.
  destruct (py_max2_cases a b) as [[-> H]|[-> _]]; [exact H | apply Qle_refl].
Qed.

(** The fused loop: returns, cumulative product, running maximum and
    drawdown of the closes after [p], in terms of the closes alone. *)
Lemma drawdown_tail (l : list Q) :
  Forall (fun c => 0 < c) l ->
  forall p a m P k,
    0 < p -> 0 < P -> 0 < k -> a == p * k -> m == P * k ->
    exists rs dd,
      pct_change (p :: l) = Some rs /\
      drawdown (cumprod_from a (map (fun r => 1 + r) rs))
               (cummax_from m (cumprod_from a (map (fun r => 1 + r) rs))) = Some dd /\
      Forall2 (fun d x => d == below_peak x) dd (combine l (cummax_from P l)).
Proof.
  induction 1 as [|c l Hc _ IH]; intros p a m P k Hp HP Hk Ha Hm.
  - exists [], []. repeat split; constructor.
  - assert (Hpne : Qeq_bool p 0 = false).
    { apply not_true_iff_false. intros E. apply Qeq_bool_iff in E.
      rewrite E in Hp. discriminate. }
    set (r := (c - p) / p).
    set (cum := a * (1 + r)).
    set (run := py_max2 m cum).
    assert (Hp0 : ~ p == 0) by (intros E; rewrite E in Hp; discriminate).
    assert (Hcum : cum == c * k) by (unfold cum, r; rewrite Ha; field; exact Hp0).
    assert (Hrun : run == py_max2 P c * k) by (now apply py_max2_scaled).
    assert (Hpeak : 0 < py_max2 P c) by (now apply py_max2_pos).
    assert (Hrunpos : 0 < run).
    { rewrite Hrun. now apply Qmult_lt_0_compat. }
    assert (Hrne : Qeq_bool run 0 = false).
    { apply not_true_iff_false. intros E. apply Qeq_bool_iff in E.
      rewrite E in Hrunpos. discriminate. }
    destruct (IH c cum run (py_max2 P c) k Hc Hpeak Hk Hcum Hrun)
      as (rs & dd & Hrs & Hdd & Hall).
    exists (r :: rs), (cum / run - 1 :: dd).
    split.
    { change (pct_change (p :: c :: l))
        with (match np_div (c - p) p, pct_change (c :: l) with
              | Some r, Some returns => Some (r :: returns)
              | _, _ => None
              end).
      unfold np_div. rewrite Hpne, Hrs. reflexivity. }
    split.
    { cbn [map cumprod_from cummax_from drawdown]. fold cum. fold run.
      unfold np_div. rewrite Hrne, Hdd. reflexivity. }
    cbn [cummax_from combine]. constructor; [|exact Hall].
    unfold below_peak. cbn [fst snd]. rewrite Hcum, Hrun.
    field. split; positive_nonzero.
Qed.

(** The drawdown series of positive closes, in closed form: the closes after
    the first, each over the running maximum of the closes after the
    first. *)
Lemma drawdown_series_closed_form (c0 c1 : Q) (l : list Q) :
  Forall (fun c => 0 < c) (c0 :: c1 :: l) ->
  exists dd,
    drawdown_series (c0 :: c1 :: l) = Some dd /\
    Forall2 (fun d x => d == below_peak x) dd
            (combine (c1 :: l) (cummax (c1 :: l))).
Proof.
  intros Hall. inversion Hall as [|? ? H0 Hall1]; subst.
  inversion Hall1 as [|? ? H1 Hl]; subst.
  assert (H0ne : ~ c0 == 0) by (intros E; rewrite E in H0; discriminate).
  assert (Hq0 : Qeq_bool c0 0 = false).
  { apply not_true_iff_false. intros E. apply Qeq_bool_iff in E. contradiction. }
  set (r := (c1 - c0) / c0).
  assert (Hk : 0 < / c0) by (now apply Qinv_lt_0_compat).
  assert (Ha : 1 + r == c1 * / c0) by (unfold r; field; exact H0ne).
  assert (Hapos : 0 < 1 + r) by (rewrite Ha; now apply Qmult_lt_0_compat).
  assert (Hane : Qeq_bool (1 + r) 0 = false).
  { apply not_true_iff_false. intros E. apply Qeq_bool_iff in E.
    rewrite E in Hapos. discriminate. }
  destruct (drawdown_tail l Hl c1 (1 + r) (1 + r) c1 (/ c0) H1 H1 Hk Ha Ha)
    as (rs & dd & Hrs & Hdd & Hf).
  exists ((1 + r) / (1 + r) - 1 :: dd). split.
  - unfold drawdown_series.
    change (pct_change (c0 :: c1 :: l))
      with (match np_div (c1 - c0) c0, pct_change (c1 :: l) with
            | Some r, Some returns => Some (r :: returns)
            | _, _ => None
            end).
    unfold np_div at 1. rewrite Hq0, Hrs. fold r.
    cbn [map cumprod cummax drawdown]. unfold np_div at 1. rewrite Hane, Hdd.
    reflexivity.
  - cbn [cummax combine]. constructor; [|exact Hf].
    unfold below_peak. cbn [fst snd]. field. split; positive_nonzero.
Qed.

Lemma py_min2_compat (a a' b b' : Q) :
  a == a' -> b == b' -> py_min2 a b == py_min2 a' b'.
Proof.
  intros Ha Hb.
  destruct (py_min2_cases a b) as [[-> H]|[-> H]];
  destruct (py_min2_cases a' b') as [[-> H']|[-> H']]; Lqa.lra.
Qed.

Lemma fold_py_min2_compat (l l' : list Q) :
  Forall2 Qeq l l' ->
  forall x x', x == x' -> fold_left py_min2 l x == fold_left py_min2 l' x'.
Proof.
  induction 1 as [|y y' l l' Hy _ IH]; intros x x' Hx; cbn [fold_left]; [exact Hx|].
  apply IH. now apply py_min2_compat.
Qed.

Lemma cummax_from_peaks (l : list Q) (P : Q) :
  0 < P ->
  Forall (fun x => fst x <= snd x /\ 0 < snd x) (combine l (cummax_from P l)).
Proof.
  revert P; induction l as [|c l IH]; intros P HP; cbn [cummax_from combine];
    constructor.
  - cbn [fst snd]. split; [apply py_max2_ge_r | now apply py_max2_pos].
  - apply IH. now apply py_max2_pos.
Qed.

Lemma below_peak_bounds (x : Q * Q) :
  0 < fst x -> fst x <= snd x -> 0 < snd x -> -1 < below_peak x /\ below_peak x <= 0.
Proof.
  destruct x as [c m]. cbn [fst snd]. unfold below_peak. cbn [fst snd].
  intros Hc Hle Hm.
  assert (H0 : 0 < c / m) by (apply Qlt_shift_div_l; [exact Hm | now rewrite Qmult_0_l]).
  assert (H1 : c / m <= 1) by (apply Qle_shift_div_r; [exact Hm | now rewrite Qmult_1_l]).
  split; Lqa.lra.
Qed.

End DrawdownFacts.

Section DrawdownTheorems.
Import Drawdown.

Lemma forall2_in_left {A B : Type} (R : A -> B -> Prop) (l : list A) (l' : list B) (a : A) :
  Forall2 R l l' -> In a l -> exists b, In b l' /\ R a b.
Proof.
  induction 1 as [|x y l l' Hxy _ IH]; [contradiction|].
  intros [<-|Hin].
  - exists y. split; [now left | exact Hxy].
  - destruct (IH Hin) as (b & Hb & HR). exists b. split; [now right | exact HR].
Qed.

Lemma forall2_same_target (f : Q * Q -> Q) (l l' : list Q) (xs : list (Q * Q)) :
  Forall2 (fun d x => d == f x) l xs -> Forall2 (fun d x => d == f x) l' xs ->
  Forall2 Qeq l l'.
Proof.
  intros H; revert l'; induction H as [|d x l xs Hd _ IH]; intros l' H';
    inversion H' as [|d' ? l'' ? Hd' Hrest]; subst; constructor.
  - now rewrite Hd, Hd'.
  - now apply IH.
Qed.

Lemma peaks_of_positive (c1 : Q) (l : list Q) (x : Q * Q) :
  Forall (fun c => 0 < c) (c1 :: l) ->
  In x (combine (c1 :: l) (cummax (c1 :: l))) ->
  0 < fst x /\ fst x <= snd x /\ 0 < snd x.
Proof.
  intros Hpos Hin.
  assert (Hfst : 0 < fst x).
  { destruct x as [c m]. apply in_combine_l in Hin. rewrite Forall_forall in Hpos.
    now apply Hpos. }
  split; [exact Hfst|].
  inversion Hpos as [|? ? H1 _]; subst.
  cbn [cummax combine] in Hin. destruct Hin as [<-|Hin].
  - cbn [fst snd]. split; [apply Qle_refl | exact H1].
  - pose proof (cummax_from_peaks l c1 H1) as Hall. rewrite Forall_forall in Hall.
    exact (Hall x Hin).
Qed.

Lemma max_drawdown_lowest (c0 c1 : Q) (l : list Q) :
  Forall (fun c => 0 < c) (c0 :: c1 :: l) ->
  exists dd lowest,
    drawdown_series (c0 :: c1 :: l) = Some dd /\
    Forall2 (fun d x => d == below_peak x) dd (combine (c1 :: l) (cummax (c1 :: l))) /\
    series_min dd = Some lowest /\ In lowest dd /\
    max_drawdown (c0 :: c1 :: l) = Some (lowest * 100).
Proof.
  intros Hpos.
  destruct (drawdown_series_closed_form c0 c1 l Hpos) as (dd & Hdd & Hf).
  destruct dd as [|d dd]; [inversion Hf|].
  exists (d :: dd), (fold_left py_min2 dd d).
  split; [exact Hdd|]. split; [exact Hf|]. split; [reflexivity|].
  split; [apply fold_py_min2_spec|].
  unfold max_drawdown. rewrite Hdd. reflexivity.
Qed.

(** X15.  For a history of at least two positive closes the maximum drawdown
    is a number, at most 0 and above -100 percent. *)
Theorem max_drawdown_bounds (c0 c1 : Q) (l : list Q) :
  Forall (fun c => 0 < c) (c0 :: c1 :: l) ->
  exists m, max_drawdown (c0 :: c1 :: l) = Some m /\ -100 < m /\ m <= 0.
Proof.
  intros Hpos.
  destruct (max_drawdown_lowest c0 c1 l Hpos) as (dd & lowest & _ & Hf & _ & Hin & ->).
  eexists; split; [reflexivity|].
  destruct (forall2_in_left _ _ _ _ Hf Hin) as (x & Hx & Hlow).
  inversion Hpos as [|? ? _ Hpos1]; subst.
  destruct (peaks_of_positive c1 l x Hpos1 Hx) as (H1 & H2 & H3).
  destruct (below_peak_bounds x H1 H2 H3) as [Hlo Hhi].
  rewrite Hlow. split; Lqa.lra.
Qed.

Lemma max_drawdown_bounds_witness :
  exists m, max_drawdown [100; 110; 99] = Some m /\ -100 < m /\ m <= 0.
Proof.
  assert (Hpos : Forall (fun c => 0 < c) [100; 110; 99])
    by (repeat constructor).
  exact (max_drawdown_bounds 100 110 [99] Hpos).
Defined.

Lemma cummax_from_sorted (l : list Q) (P : Q) :
  Forall (fun c => P <= c) l -> StronglySorted Qle l ->
  Forall (fun x => snd x == fst x) (combine l (cummax_from P l)).
Proof.
  revert P; induction l as [|c l IH]; intros P HP Hs; cbn [cummax_from combine];
    constructor.
  - cbn [fst snd]. inversion HP; subst. rewrite py_max2_Qmax. now apply Q.max_r.
  - inversion HP as [|? ? HPc _]; subst. inversion Hs as [|? ? Hs' Hall]; subst.
    apply IH; [|exact Hs'].
    eapply Forall_impl; [|exact Hall]. intros x Hx. cbv beta in Hx.
    rewrite py_max2_Qmax, (Q.max_r P c HPc). exact Hx.
Qed.

(** X16.  The running maximum starts at the second close: when the positive
    closes never fall from the second close on, the maximum drawdown is 0,
    even if the second close is below the first. *)
Theorem no_drawdown_without_later_fall (c0 c1 : Q) (l : list Q) :
  Forall (fun c => 0 < c) (c0 :: c1 :: l) -> StronglySorted Qle (c1 :: l) ->
  exists m, max_drawdown (c0 :: c1 :: l) = Some m /\ m == 0.
Proof.
  intros Hpos Hs.
  destruct (max_drawdown_lowest c0 c1 l Hpos) as (dd & lowest & _ & Hf & _ & Hin & ->).
  eexists; split; [reflexivity|].
  destruct (forall2_in_left _ _ _ _ Hf Hin) as (x & Hx & Hlow).
  inversion Hpos as [|? ? _ Hpos1]; subst.
  destruct (peaks_of_positive c1 l x Hpos1 Hx) as (H1 & _ & H3).
  assert (Hpeak : snd x == fst x).
  { inversion Hs as [|? ? Hs' Hall]; subst.
    cbn [cummax combine] in Hx. destruct Hx as [<-|Hx]; [reflexivity|].
    pose proof (cummax_from_sorted l c1 Hall Hs') as Hsorted.
    rewrite Forall_forall in Hsorted. exact (Hsorted x Hx). }
  rewrite Hlow. unfold below_peak. rewrite Hpeak. field. positive_nonzero.
Qed.

Lemma no_drawdown_without_later_fall_witness :
  exists m, max_drawdown [100; 50; 60] = Some m /\ m == 0.
Proof.
  assert (Hpos : Forall (fun c => 0 < c) [100; 50; 60]) by (repeat constructor).
  assert (Hs : StronglySorted Qle [50; 60]).
  { repeat constructor. discriminate. }
  exact (no_drawdown_without_later_fall 100 50 [60] Hpos Hs).
Defined.

(** X17.  For positive closes the drawdown at each day after the first is
    that day's close over the highest close since the second day, minus one;
    the first close cancels out, so replacing it by any other positive value
    leaves the maximum drawdown unchanged. *)
Theorem drawdown_ignores_first_close (c0 c0' c1 : Q) (l : list Q) :
  Forall (fun c => 0 < c) (c0 :: c1 :: l) -> 0 < c0' ->
  exists dd m m',
    drawdown_series (c0 :: c1 :: l) = Some dd /\
    Forall2 (fun d x => d == fst x / snd x - 1) dd
            (combine (c1 :: l) (cummax (c1 :: l))) /\
    max_drawdown (c0 :: c1 :: l) = Some m /\
    max_drawdown (c0' :: c1 :: l) = Some m' /\
    m == m'.
Proof.
  intros Hpos Hc0'.
  assert (Hpos' : Forall (fun c => 0 < c) (c0' :: c1 :: l)).
  { inversion Hpos; subst. now constructor. }
  destruct (max_drawdown_lowest c0 c1 l Hpos) as (dd & low & Hdd & Hf & Hmin & _ & Hm).
  destruct (max_drawdown_lowest c0' c1 l Hpos') as (dd' & low' & _ & Hf' & Hmin' & _ & Hm').
  exists dd, (low * 100), (low' * 100).
  split; [exact Hdd|]. split; [exact Hf|]. split; [exact Hm|]. split; [exact Hm'|].
  pose proof (forall2_same_target below_peak dd dd' _ Hf Hf') as Heq.
  destruct Heq as [|d d' dd dd' Hd Hrest]; [discriminate|].
  cbn [series_min] in Hmin, Hmin'. injection Hmin as <-. injection Hmin' as <-.
  now rewrite (fold_py_min2_compat dd dd' Hrest d d' Hd).
Qed.

Lemma drawdown_ignores_first_close_witness :
  exists m m',
    max_drawdown [100; 110; 99] = Some m /\
    max_drawdown [500; 110; 99] = Some m' /\ m == m'.
Proof.
  assert (Hpos : Forall (fun c => 0 < c) [100; 110; 99]) by (repeat constructor).
  assert (H0 : 0 < 500) by reflexivity.
  destruct (drawdown_ignores_first_close 100 500 110 [99] Hpos H0)
    as (dd & m & m' & _ & _ & Hm & Hm' & Heq).
  exists m, m'. split; [exact Hm|]. split; [exact Hm' | exact Heq].
Defined.

End DrawdownTheorems.

(** * Quotes and trades *)

Section QuotesTheorems.
Import Quotes.
Local Open Scope string_scope.

Lemma split_on_nonempty (sep : ascii) (s : string) : split_on sep s <> [].
Proof.
  destruct s as [|c rest]; cbn [split_on]; [discriminate|].
  destruct (Ascii.eqb c sep); [discriminate|].
  destruct (split_on sep rest); discriminate.
Qed.

Lemma split_on_free (sep : ascii) (s : string) :
  free_of sep s = true -> split_on sep s = [s].
Proof.
  induction s as [|c rest IH]; [reflexivity|].
  cbn [free_of split_on]. intros H. apply andb_true_iff in H. destruct H as [Hc Hrest].
  apply negb_true_iff in Hc. rewrite Hc, (IH Hrest). reflexivity.
Qed.

Lemma split_on_app (sep : ascii) (x rest : string) :
  free_of sep x = true ->
  split_on sep (x ++ String sep rest) = x :: split_on sep rest.
Proof.
  induction x as [|c x IH]; cbn [free_of append split_on].
  - intros _. now rewrite Ascii.eqb_refl.
  - intros H. apply andb_true_iff in H. destruct H as [Hc Hx].
    apply negb_true_iff in Hc. rewrite Hc, (IH Hx). reflexivity.
Qed.

Lemma split_on_join (sep : ascii) (pieces : list string) :
  pieces <> [] -> Forall (fun p => free_of sep p = true) pieces ->
  split_on sep (join (String sep "") pieces) = pieces.
Proof.
  intros Hne Hall. induction Hall as [|p rest Hp Hrest IH]; [contradiction|].
  destruct rest as [|q rest].
  - cbn [join]. now apply split_on_free.
  - change (join (String sep "") (p :: q :: rest))
      with (p ++ String sep (join (String sep "") (q :: rest))).
    rewrite (split_on_app sep p _ Hp), IH by discriminate. reflexivity.
Qed.

Lemma split_on_pieces_free (sep : ascii) (s : string) :
  Forall (fun p => free_of sep p = true) (split_on sep s).
Proof.
  induction s as [|c rest IH]; cbn [split_on].
  - constructor; [reflexivity | constructor].
  - destruct (Ascii.eqb c sep) eqn:E.
    + constructor; [reflexivity | exact IH].
    + destruct (split_on sep rest) as [|piece pieces].
      * constructor; [|constructor]. cbn [free_of]. now rewrite E.
      * inversion IH; subst. constructor; [|assumption].
        cbn [free_of]. rewrite E. assumption.
Qed.

Lemma join_split_on (sep : ascii) (s : string) :
  join (String sep "") (split_on sep s) = s.
Proof.
  induction s as [|c rest IH]; [reflexivity|]. cbn [split_on].
  pose proof (split_on_nonempty sep rest) as Hne.
  destruct (Ascii.eqb_spec c sep) as [->|_].
  - destruct (split_on sep rest) as [|p ps]; [contradiction|].
    change (join (String sep "") ("" :: p :: ps))
      with ("" ++ String sep (join (String sep "") (p :: ps))).
    now rewrite IH.
  - destruct (split_on sep rest) as [|p ps]; [contradiction|].
    destruct ps as [|q ps].
    + cbn [join] in *. now rewrite IH.
    + change (join (String sep "") (String c p :: q :: ps))
        with (String c (p ++ String sep (join (String sep "") (q :: ps)))).
      change (join (String sep "") (p :: q :: ps))
        with (p ++ String sep (join (String sep "") (q :: ps))) in IH.
      now rewrite IH.
Qed.

Lemma split_on_length (sep : ascii) (s : string) :
  List.length (split_on sep s) = S (occurrences sep s).
Proof.
  induction s as [|c rest IH]; [reflexivity|]. cbn [split_on occurrences].
  pose proof (split_on_nonempty sep rest) as Hne.
  destruct (Ascii.eqb c sep).
  - cbn [List.length]. now rewrite IH.
  - destruct (split_on sep rest); [contradiction|]. cbn [List.length] in *.
    now rewrite IH.
Qed.

Lemma lstrip_idempotent (s : string) : lstrip (lstrip s) = lstrip s.
Proof.
  induction s as [|c rest IH]; [reflexivity|]. cbn [lstrip].
  destruct (is_space c) eqn:E; [exact IH|]. cbn [lstrip]. now rewrite E.
Qed.

Lemma rstrip_idempotent (s : string) : rstrip (rstrip s) = rstrip s.
Proof.
  induction s as [|c rest IH]; [reflexivity|]. cbn [rstrip].
  destruct (rstrip rest) as [|d kept] eqn:E.
  - destruct (is_space c) eqn:Ec; [reflexivity|]. cbn [rstrip]. now rewrite Ec.
  - change (rstrip (String c (String d kept)))
      with (match rstrip (String d kept) with
            | EmptyString => if is_space c then EmptyString else String c EmptyString
            | k => String c k
            end).
    now rewrite IH.
Qed.

Lemma rstrip_lstrip (s : string) : rstrip s = s -> rstrip (lstrip s) = lstrip s.
Proof.
  induction s as [|c rest IH]; [reflexivity|]. intros H. cbn [lstrip].
  destruct (is_space c) eqn:E; [|exact H].
  apply IH. cbn [rstrip] in H. destruct (rstrip rest) as [|d kept].
  - rewrite E in H. discriminate.
  - now injection H.
Qed.

Lemma strip_idempotent (s : string) : strip (strip s) = strip s.
Proof.
  unfold strip.
  rewrite (rstrip_lstrip (rstrip s) (rstrip_idempotent s)).
  apply lstrip_idempotent.
Qed.

Lemma strip_fixed_points (s : string) :
  lstrip (strip s) = strip s /\ rstrip (strip s) = strip s.
Proof.
  unfold strip. split; [apply lstrip_idempotent|].
  apply rstrip_lstrip, rstrip_idempotent.
Qed.

Lemma lstrip_free (sep : ascii) (s : string) :
  free_of sep s = true -> free_of sep (lstrip s) = true.
Proof.
  induction s as [|c rest IH]; [reflexivity|]. cbn [lstrip]. intros H.
  destruct (is_space c); [|exact H].
  apply IH. cbn [free_of] in H. apply andb_true_iff in H. apply H.
Qed.

Lemma rstrip_free (sep : ascii) (s : string) :
  free_of sep s = true -> free_of sep (rstrip s) = true.
Proof.
  induction s as [|c rest IH]; [reflexivity|]. cbn [rstrip free_of]. intros H.
  apply andb_true_iff in H. destruct H as [Hc Hrest]. specialize (IH Hrest).
  destruct (rstrip rest) as [|d kept].
  - destruct (is_space c); [reflexivity|]. cbn [free_of]. now rewrite Hc.
  - cbn [free_of] in *. now rewrite Hc, IH.
Qed.

(** X18.  [get_quotes] keeps one symbol per comma-separated field, empty
    fields included: the list has one entry more than the string has commas.
    When no field carries surrounding white space the parameter sent
    upstream is the submitted string itself; and a non-empty list of
    comma-free, stripped symbols survives being joined by [fetch_quotes] and
    parsed by [get_quotes] unchanged. *)
Theorem symbols_round_trip (symbols : string) :
  List.length (symbols_list symbols) = S (occurrences "," symbols) /\
  (Forall (fun p => strip p = p) (split_on "," symbols) ->
   symbols_param (symbols_list symbols) = symbols) /\
  (forall l, l <> [] -> Forall (fun p => free_of "," p = true /\ strip p = p) l ->
             symbols_list (symbols_param l) = l).
Proof.
  unfold symbols_list, symbols_param.
  split; [rewrite length_map; apply split_on_length|]. split.
  - intros Hstripped.
    replace (map strip (split_on "," symbols)) with (split_on "," symbols).
    + apply (join_split_on ","%char).
    + symmetry. rewrite <- (map_id (split_on "," symbols)) at 2.
      apply map_ext_in. intros p Hp. rewrite Forall_forall in Hstripped.
      now apply Hstripped.
  - intros l Hne Hall.
    rewrite (split_on_join ","%char l Hne).
    + rewrite <- (map_id l) at 2. apply map_ext_in. intros p Hp.
      rewrite Forall_forall in Hall. apply (Hall p Hp).
    + eapply Forall_impl; [|exact Hall]. intros p Hp. apply Hp.
Qed.

Lemma symbols_round_trip_witness :
  symbols_param (symbols_list "AAPL,MSFT,") = "AAPL,MSFT," /\
  symbols_list (symbols_param ["AAPL"; "MSFT"]) = ["AAPL"; "MSFT"].
Proof.
  destruct (symbols_round_trip "AAPL,MSFT,") as (_ & Hs & Hl).
  split.
  - apply Hs. repeat constructor.
  - apply Hl; [discriminate|]. repeat constructor.
Defined.

(** X19.  The symbols that [get_quotes] extracts are in normal form: there is
    at least one, none contains a comma, none starts or ends with white
    space, and sending them upstream comma-joined and parsing that string
    again gives the same list. *)
Theorem symbols_list_normal_form (symbols : string) :
  symbols_list symbols <> [] /\
  Forall (fun p => free_of "," p = true /\ lstrip p = p /\ rstrip p = p)
         (symbols_list symbols) /\
  symbols_list (symbols_param (symbols_list symbols)) = symbols_list symbols.
Proof.
  unfold symbols_list, symbols_param.
  pose proof (split_on_nonempty ","%char symbols) as Hne.
  pose proof (split_on_pieces_free ","%char symbols) as Hfree.
  assert (Hnf : Forall (fun p => free_of "," p = true /\ lstrip p = p /\ rstrip p = p)
                       (map strip (split_on "," symbols))).
  { apply Forall_map. eapply Forall_impl; [|exact Hfree]. intros p Hp. cbv beta in Hp.
    split; [unfold strip; now apply lstrip_free, rstrip_free|].
    apply strip_fixed_points. }
  split; [destruct (split_on "," symbols); [contradiction | discriminate]|].
  split; [exact Hnf|].
  rewrite (split_on_join ","%char).
  - rewrite map_map. apply map_ext. intros p. apply strip_idempotent.
  - destruct (split_on "," symbols); [contradiction | discriminate].
  - eapply Forall_impl; [|exact Hnf]. intros p Hp. apply Hp.
Qed.

End QuotesTheorems.

Section TradesTheorems.
Import Trades.

(** X20.  [submit_trade] answers with the error payload and inserts nothing
    exactly when strategy_id or symbol is missing or empty or legs is missing
    or empty; otherwise it inserts exactly one record, with status
    "simulated" and the request's strategy_id, symbol and legs, and returns
    that record with the id assigned by the store. *)
Theorem submit_trade_outcomes (Leg : Type) (uuid now oid : string) (request : Request Leg) :
  let rejected :=
    strategy_id Leg request = None \/ strategy_id Leg request = Some ""%string \/
    symbol Leg request = None \/ symbol Leg request = Some ""%string \/
    get (legs Leg request) [] = [] in
  (rejected <->
   submit_trade Leg uuid now oid request =
   (ErrorPayload "Missing required parameters", [])) /\
  (~ rejected <->
   exists sid sym,
     strategy_id Leg request = Some sid /\ symbol Leg request = Some sym /\
     submit_trade Leg uuid now oid request =
     (Payload (mkTrade Leg uuid sid sym (get (legs Leg request) []) "simulated" now
                       (Some oid)),
      [mkTrade Leg uuid sid sym (get (legs Leg request) []) "simulated" now None])).
Proof.
  intros rejected.
  assert (Hcases :
    (rejected /\
     submit_trade Leg uuid now oid request =
     (ErrorPayload "Missing required parameters", [])) \/
    (~ rejected /\
     exists sid sym,
       strategy_id Leg request = Some sid /\ symbol Leg request = Some sym /\
       submit_trade Leg uuid now oid request =
       (Payload (mkTrade Leg uuid sid sym (get (legs Leg request) []) "simulated" now
                         (Some oid)),
        [mkTrade Leg uuid sid sym (get (legs Leg request) []) "simulated" now None]))).
  { unfold rejected, submit_trade.
    destruct (strategy_id Leg request) as [sid|]; cbn [truthy_str get negb orb];
      [|left; split; [now left | reflexivity]].
    destruct (String.eqb_spec sid "") as [->|Hsid]; cbn [negb orb];
      [left; split; [right; now left | reflexivity]|].
    destruct (symbol Leg request) as [sym|]; cbn [truthy_str get negb orb];
      [|left; split; [right; right; now left | reflexivity]].
    destruct (String.eqb_spec sym "") as [->|Hsym]; cbn [negb orb];
      [left; split; [right; right; right; now left | reflexivity]|].
    destruct (get (legs Leg request) []) as [|l ls] eqn:El; cbn [truthy_list negb];
      [left; split; [right; right; right; now right | reflexivity]|].
    right. split.
    - intros [H|[H|[H|[H|H]]]]; try discriminate H; injection H; intros; contradiction.
    - exists sid, sym. split; [reflexivity|]. split; reflexivity. }
  destruct Hcases as [[Hr He]|[Hn (sid & sym & Hs & Hy & Hp)]].
  - split; [split; [intros _; exact He | intros _; exact Hr]|].
    split; [intros H; contradiction|].
    intros (s & t & _ & _ & H). rewrite He in H. discriminate H.
  - split; [split; [intros H; contradiction|]|].
    + intros H. rewrite Hp in H. discriminate H.
    + split; [intros _; now exists sid, sym | intros _; exact Hn].
Qed.

End TradesTheorems.
